(** * gorng: a SHA-1 engine, the digest-cycling generator built on it, and the
    byte-extraction / channel layer.

    Shallow embedding of the Go sources
      - sha1/hash.go, sha1/digest.go   (module [sha1])
      - random.go                      (module [gorng])
      - the [safe] package             (module [safe])
      - cmd/encode/main.go             (the [%X] rendering, module [encode];
                                        [main], module [cmd_encode])
      - cmd/dedup/main.go              (module [dedup])
      - the two earlier revisions of sha1/hash.go kept beside the current
        one                            (modules [draft], [draft2])

    The engine is also read as a function of the bytes it has taken in
    ([absorbed]) and compared with SHA-1 as FIPS 180-4 defines it, which the
    doc comment of [mixBits] cites (module [FIPS]).

    Conventions.  A [uint32] / [uint64] / [uint8] is a [Z] kept in range by an
    explicit wrap ([u32], [u64], [u8]) wherever Go's arithmetic may overflow.
    A [[]byte] is a [list byte].  A fixed-size Go array is a list; indexing
    with a constant or a loop counter bounded by the array size is total,
    indexing with a computed value is checked and a failed check is Go's
    run-time panic, [None] in the option monad. *)

From Stdlib Require Import ZArith List Lia String Ascii Bool Btauto.
From Stdlib.Strings Require Import Byte.
From stdpp Require Import base option list.
From coqutil Require Import Z.bitblast.
From stdpp Require Import strings gmap.

Local Open Scope Z_scope.

(** ** Machine integers *)

Definition u8 (x : Z) : Z := x mod 2 ^ 8.
Definition u32 (x : Z) : Z := x mod 2 ^ 32.
Definition u64 (x : Z) : Z := x mod 2 ^ 64.

(** [x + y] and [x << n] on [uint32]. *)
Definition add32 (x y : Z) : Z := u32 (x + y).
Definition shl32 (x n : Z) : Z := u32 (Z.shiftl x n).

(** [0 <= x < 2^32], the values a [uint32] holds. *)
Definition is_u32 (x : Z) : Prop := 0 <= x < 2 ^ 32.

#[global] Instance is_u32_dec x : Decision (is_u32 x).
Proof. unfold is_u32. apply _. Defined.

(** [uint32(b)] for a byte and [byte(x)] for an integer. *)
Definition Z_of_byte (b : byte) : Z := Z.of_N (Byte.to_N b).
Definition byte_of_Z (x : Z) : byte :=
  match Byte.of_N (Z.to_N (u8 x)) with
  | Some b => b
  | None => x00
  end.

(** Arrays: [a[i]] read and written with an index that the Go type system or a
    constant loop bound keeps in range, and the checked store used where the
    index is computed from data. *)
Definition get (a : list Z) (i : nat) : Z := default 0 (a !! i).
Definition set (a : list Z) (i : nat) (v : Z) : list Z := <[i := v]> a.
Definition load (a : list Z) (i : Z) : option Z :=
  if (0 <=? i) then a !! Z.to_nat i else None.
Definition store (a : list Z) (i : Z) (v : Z) : option (list Z) :=
  if (0 <=? i) && (i <? Z.of_nat (length a)) then Some (<[Z.to_nat i := v]> a)
  else None.
(** [clear(a[:])]. *)
Definition clear (a : list Z) : list Z := replicate (length a) 0.

(** [s[lo:hi]]; panics unless [0 <= lo <= hi <= len(s)]. *)
Definition slice {A} (s : list A) (lo hi : Z) : option (list A) :=
  if (0 <=? lo) && (lo <=? hi) && (hi <=? Z.of_nat (length s))
  then Some (take (Z.to_nat (hi - lo)) (drop (Z.to_nat lo) s))
  else None.

(** ** encoding/binary, big-endian *)
Module BigEndian.

(** [binary.BigEndian.PutUint32(b, v)] on a fresh 4-byte window. *)
Definition bytes_of_Uint32 (v : Z) : list byte :=
  [byte_of_Z (Z.shiftr v 24); byte_of_Z (Z.shiftr v 16);
   byte_of_Z (Z.shiftr v 8); byte_of_Z v].

Definition bytes_of_Uint64 (v : Z) : list byte :=
  [byte_of_Z (Z.shiftr v 56); byte_of_Z (Z.shiftr v 48);
   byte_of_Z (Z.shiftr v 40); byte_of_Z (Z.shiftr v 32);
   byte_of_Z (Z.shiftr v 24); byte_of_Z (Z.shiftr v 16);
   byte_of_Z (Z.shiftr v 8); byte_of_Z v].

(** Big-endian value of a byte string. *)
Definition be_value (b : list byte) : Z :=
  fold_left (fun acc x => acc * 256 + Z_of_byte x) b 0.

(** [Uint32(b)] and [Uint64(b)]: the early bounds check [_ = b[3]] /
    [_ = b[7]] panics on a short slice. *)
Definition Uint32 (b : list byte) : option Z :=
  if (4 <=? length b)%nat then Some (be_value (take 4 b)) else None.
Definition Uint64 (b : list byte) : option Z :=
  if (8 <=? length b)%nat then Some (be_value (take 8 b)) else None.

(** [PutUint64(b[off:], v)]: slicing panics when [off > len(b)], the bounds
    check [_ = b[7]] when fewer than 8 bytes remain. *)
Definition PutUint64_at (b : list byte) (off : nat) (v : Z) : option (list byte) :=
  if (off + 8 <=? length b)%nat
  then Some (take off b ++ bytes_of_Uint64 v ++ drop (off + 8) b)
  else None.

End BigEndian.

(** ** Package sha1 (sha1/hash.go, sha1/digest.go) *)
Module sha1.

Definition BLOCK_BYTES : Z := 64.
Definition BLOCK_INTS : nat := 16.
Definition BLOCKITEM_MASK : Z := 3.
Definition DIGEST_BYTES : nat := 20.
Definition DIGEST_INTS : nat := 5.
Definition SCRATCH_INTS : nat := 80.

Definition K_0 : Z := 0x5a827999.
Definition K_1 : Z := 0x6ed9eba1.
Definition K_2 : Z := 0x8f1bbcdc.
Definition K_3 : Z := 0xca62c1d6.

(** [type digest struct { bytes [DIGEST_BYTES]byte }]. *)
Record digest := mkDigest { bytes : list byte }.
Definition Bytes (d : digest) : list byte := bytes d.

(** [type hasher struct { block; length; chainValue }]. *)
Record hasher := mkHasher {
  block : list Z;
  length : Z;
  chainValue : list Z
}.

(** The shape Go's array types give the two arrays. *)
Definition wf (state : hasher) : Prop :=
  List.length (block state) = BLOCK_INTS /\
  List.length (chainValue state) = DIGEST_INTS.

(** [new(hasher)]: the zero value. *)
Definition zero_hasher : hasher :=
  mkHasher (replicate BLOCK_INTS 0) 0 (replicate DIGEST_INTS 0).

Definition Reset (state : hasher) : hasher :=
  let cv := chainValue state in
  let cv := set cv 0 0x67452301 in
  let cv := set cv 1 0xefcdab89 in
  let cv := set cv 2 0x98badcfe in
  let cv := set cv 3 0x10325476 in
  let cv := set cv 4 0xc3d2e1f0 in
  mkHasher (clear (block state)) 0 cv.

Definition New : hasher := Reset zero_hasher.

(** [rotateL]: [uint32(value<<bits) | uint32(value>>(32-bits))]. *)
Definition rotateL (value : Z) (bits : Z) : Z :=
  Z.lor (shl32 value bits) (Z.shiftr value (32 - bits)).

(** The loop of [copyBytes], one iteration per message byte; the loop state
    is [(block, length, blocki, value)]. *)
Fixpoint copyBytes_loop (message : list byte) (blk : list Z)
  (len blocki value : Z) : option (list Z * Z * Z * Z) :=
  match message with
  | [] => Some (blk, len, blocki, value)
  | m :: message' =>
    let value := add32 (shl32 value 8) (Z_of_byte m) in
    let len := u64 (len + 1) in
    if Z.land len BLOCKITEM_MASK =? 0 then
      blk ← store blk blocki value;
      copyBytes_loop message' blk len (u32 (blocki + 1)) 0
    else copyBytes_loop message' blk len blocki value
  end.

Definition copyBytes (state : hasher) (message : list byte) : option hasher :=
  let msglen := u32 (Z.of_nat (List.length message)) in
  let blocki := Z.shiftr (u32 (Z.land (length state) 63)) 2 in
  value ← load (block state) blocki;
  '(blk, len, blocki, value) ←
    copyBytes_loop (take (Z.to_nat msglen) message) (block state)
                   (length state) blocki value;
  blk ← (if negb (Z.land len BLOCKITEM_MASK =? 0)
         then store blk blocki value else Some blk);
  Some (mkHasher blk len (chainValue state)).

(** The message schedule: the three loops that fill [scratch]. *)
Definition sched_load (blk : list Z) (scratch : list Z) (i : nat) : list Z :=
  set scratch i (get blk i).
Definition sched_step1 (scratch : list Z) (i : nat) : list Z :=
  let tmp := Z.lxor (Z.lxor (Z.lxor (get scratch (i - 3)) (get scratch (i - 8)))
                            (get scratch (i - 14))) (get scratch (i - 16)) in
  set scratch i (rotateL tmp 1).
Definition sched_step2 (scratch : list Z) (i : nat) : list Z :=
  let tmp := Z.lxor (Z.lxor (Z.lxor (get scratch (i - 6)) (get scratch (i - 16)))
                            (get scratch (i - 28))) (get scratch (i - 32)) in
  set scratch i (rotateL tmp 2).

Definition schedule (blk : list Z) (scratch : list Z) : list Z :=
  let scratch := fold_left (sched_load blk) (seq 0 16) scratch in
  let scratch := fold_left sched_step1 (seq 16 16) scratch in
  fold_left sched_step2 (seq 32 (SCRATCH_INTS - 32)) scratch.

(** The working variables [a, b, c, d, e]. *)
Definition vars : Type := Z * Z * Z * Z * Z.

(** One round: [f] is the pass's boolean function of [b, c, d], [K] its
    constant. *)
Definition round (f : Z -> Z -> Z -> Z) (K : Z) (scratch : list Z)
  (v : vars) (i : nat) : vars :=
  let '(a, b, c, d, e) := v in
  let tmp :=
    add32 (add32 (add32 (add32 (rotateL a 5) (f b c d)) e) K) (get scratch i) in
  (tmp, a, rotateL b 30, c, d).

Definition f_choice (b c d : Z) : Z := Z.lxor d (Z.land b (Z.lxor c d)).
Definition f_parity (b c d : Z) : Z := Z.lxor (Z.lxor b c) d.
Definition f_majority (b c d : Z) : Z := Z.lor (Z.land b c) (Z.land d (Z.lor b c)).

Definition rounds (scratch : list Z) (v : vars) : vars :=
  let v := fold_left (round f_choice K_0 scratch) (seq 0 20) v in
  let v := fold_left (round f_parity K_1 scratch) (seq 20 20) v in
  let v := fold_left (round f_majority K_2 scratch) (seq 40 20) v in
  fold_left (round f_parity K_3 scratch) (seq 60 20) v.

(** [mixBits]: takes the state and the caller's scratch buffer, returns both. *)
Definition mixBits (state : hasher) (scratch : list Z) : hasher * list Z :=
  let scratch := schedule (block state) scratch in
  let cv := chainValue state in
  let '(a, b, c, d, e) :=
    rounds scratch (get cv 0, get cv 1, get cv 2, get cv 3, get cv 4) in
  let cv := set cv 0 (add32 (get cv 0) a) in
  let cv := set cv 1 (add32 (get cv 1) b) in
  let cv := set cv 2 (add32 (get cv 2) c) in
  let cv := set cv 3 (add32 (get cv 3) d) in
  let cv := set cv 4 (add32 (get cv 4) e) in
  (mkHasher (clear (block state)) (length state) cv, clear scratch).

(** The loop of [Write] over the remaining 64-byte chunks.  Each iteration
    advances [index] by at least one byte, so [fuel] = the message length is
    never exhausted. *)
Fixpoint Write_loop (fuel : nat) (state : hasher) (scratch : list Z)
  (message : list byte) (index msglen : Z) : option (hasher * list Z) :=
  if index <? msglen then
    match fuel with
    | O => None
    | S fuel' =>
      let next := index + BLOCK_BYTES in
      let next := if next >? msglen then msglen else next in
      chunk ← slice message index next;
      state ← copyBytes state chunk;
      let '(state, scratch) :=
        if next - index =? BLOCK_BYTES then mixBits state scratch
        else (state, scratch) in
      Write_loop fuel' state scratch message next msglen
    end
  else Some (state, scratch).

(** [Write]: the new state and the returned count (the error is always nil). *)
Definition Write (state : hasher) (message : list byte) : option (hasher * Z) :=
  let msglen := Z.of_nat (List.length message) in
  if msglen =? 0 then Some (state, 0)
  else
    let offset := Z.land (length state) (BLOCK_BYTES - 1) in
    if msglen + offset <? BLOCK_BYTES then
      state ← copyBytes state message;
      Some (state, msglen)
    else
      let scratch := replicate SCRATCH_INTS 0 in
      let index := 64 - offset in
      chunk ← slice message 0 index;
      state ← copyBytes state chunk;
      let '(state, scratch) := mixBits state scratch in
      let index := index + offset in
      '(state, _) ← Write_loop (List.length message) state scratch message index msglen;
      Some (state, msglen).

Definition write1bit (blk : list Z) (blockpos : Z) : option (list Z) :=
  let blocki := Z.shiftr blockpos 2 in
  match Z.land blockpos BLOCKITEM_MASK with
  | 0 => store blk blocki 0x80000000
  | 1 => v ← load blk blocki; store blk blocki (Z.lor (shl32 v 24) 0x00800000)
  | 2 => v ← load blk blocki; store blk blocki (Z.lor (shl32 v 16) 0x00008000)
  | 3 => v ← load blk blocki; store blk blocki (Z.lor (shl32 v 8) 0x00000080)
  | _ => Some blk
  end.

Definition newDigest (ints : list Z) : digest :=
  mkDigest (BigEndian.bytes_of_Uint32 (get ints 0) ++
            BigEndian.bytes_of_Uint32 (get ints 1) ++
            BigEndian.bytes_of_Uint32 (get ints 2) ++
            BigEndian.bytes_of_Uint32 (get ints 3) ++
            BigEndian.bytes_of_Uint32 (get ints 4)).

Definition Hash (state : hasher) : option (digest * hasher) :=
  let len := length state in
  let scratch := replicate SCRATCH_INTS 0 in
  blk ← write1bit (block state) (u8 (Z.land len 63));
  let state := mkHasher blk (length state) (chainValue state) in
  let '(state, scratch) :=
    if 56 <=? Z.land len 63 then
      mixBits (mkHasher (block state)
                        (u64 (length state + (64 - Z.land len 63)))
                        (chainValue state)) scratch
    else (state, scratch) in
  let blk := set (block state) (BLOCK_INTS - 2) (u32 (Z.shiftr len 29)) in
  let blk := set blk (BLOCK_INTS - 1) (shl32 (u32 (Z.land len 0x1FFFFFFF)) 3) in
  let state :=
    mkHasher blk (u64 (length state + (64 - Z.land (length state) 63)))
             (chainValue state) in
  let '(state, scratch) := mixBits state scratch in
  let digest := newDigest (chainValue state) in
  Some (digest, Reset state).

Definition HashBytes (input : list byte) : option digest :=
  let hasher := New in
  '(hasher, _) ← Write hasher input;
  '(d, _) ← Hash hasher;
  Some d.

Definition HashString (input : string) : option digest :=
  HashBytes (list_byte_of_string input).

End sha1.

(** ** The earlier draft of sha1/hash.go kept beside the current one:
    a byte block, the chain value in a field [digest], and a [Reset] that
    assigns [state.digest[0]] five times *)
Module draft.

Record hasher := mkHasher {
  block : list byte;
  length : Z;
  digest : list Z
}.

Definition Reset (state : hasher) : hasher :=
  let dg := digest state in
  let dg := set dg 0 0x67452301 in
  let dg := set dg 0 0xefcdab89 in
  let dg := set dg 0 0x98badcfe in
  let dg := set dg 0 0x10325476 in
  let dg := set dg 0 0xc3d2e1f0 in
  mkHasher (replicate (List.length (block state)) x00) 0 dg.

End draft.

(** ** cmd/encode: [fmt.Printf("%X", digest.Bytes())] *)
Module encode.

Definition hex_digit (n : Z) : ascii :=
  if n <? 10 then ascii_of_nat (Z.to_nat (48 + n))
  else ascii_of_nat (Z.to_nat (55 + n)).

Fixpoint hex (b : list byte) : string :=
  match b with
  | [] => EmptyString
  | x :: b' =>
    String (hex_digit (Z.shiftr (Z_of_byte x) 4))
      (String (hex_digit (Z.land (Z_of_byte x) 15)) (hex b'))
  end.

End encode.

(** ** Package gorng (random.go) *)
Module gorng.

(** [type ShaRing struct { rng sha1.Hasher; offset int; digest sha1.Digest }].
    [digest] is an interface value: [None] is Go's nil. *)
Record ShaRing := mkShaRing {
  rng : sha1.hasher;
  offset : Z;
  digest : option sha1.digest
}.

Definition New (source : option sha1.hasher) : ShaRing :=
  let source := match source with None => sha1.New | Some s => s end in
  mkShaRing source 0 None.

(** The loop [for i := range more] of [NewSourceSeeded]. *)
Fixpoint put_more (bytes : list byte) (i : nat) (more : list Z)
  : option (list byte) :=
  match more with
  | [] => Some bytes
  | m :: more' =>
    bytes ← BigEndian.PutUint64_at bytes (8 * (i + 1)) m;
    put_more bytes (S i) more'
  end.

Definition NewSourceSeeded (seed : Z) (more : list Z) : option ShaRing :=
  let source := sha1.New in
  let size := (2 + 2 * length more)%nat in
  let bytes := replicate size x00 in
  bytes ← BigEndian.PutUint64_at bytes 0 seed;
  bytes ← put_more bytes 0 more;
  '(source, _) ← sha1.Write source bytes;
  Some (mkShaRing source 0 None).

Section FromDigest.
(** [sha1.NewFromDigest] is declared outside the files at hand; the hasher it
    returns is taken as given. *)
Variable NewFromDigest : sha1.digest -> sha1.hasher.

Definition NewSourceDigest (d : sha1.digest) : ShaRing :=
  let source := NewFromDigest d in
  mkShaRing source 0 None.
End FromDigest.

(** The arm of [switch rng.offset] a call takes. *)
Inductive arm := case_0 | case_4_8 | case_12 | case_16 | no_case.

Definition select (off : Z) : arm :=
  match off with
  | 0 => case_0
  | 4 | 8 => case_4_8
  | 12 => case_12
  | 16 => case_16
  | _ => no_case
  end.

(** [rng.digest.Bytes()]: a method call on a nil interface panics. *)
Definition digest_Bytes (d : option sha1.digest) : option (list byte) :=
  d ← d; Some (sha1.Bytes d).

Definition Uint64 (r : ShaRing) : option (Z * ShaRing) :=
  match select (offset r) with
  | case_0 =>
    '(d, h) ← sha1.Hash (rng r);
    next ← BigEndian.Uint64 (sha1.Bytes d);
    Some (next, mkShaRing h (offset r) (Some d))
  | case_4_8 =>
    b ← digest_Bytes (digest r);
    next ← BigEndian.Uint64 b;
    Some (next, mkShaRing (rng r) (offset r + 8) (digest r))
  | case_12 =>
    b ← digest_Bytes (digest r);
    next ← BigEndian.Uint64 b;
    Some (next, mkShaRing (rng r) 0 (digest r))
  | case_16 =>
    b ← digest_Bytes (digest r);
    tail ← slice b 16 (Z.of_nat (length b));
    hi ← BigEndian.Uint32 tail;
    let next := u64 (Z.shiftl hi 32) in
    '(d, h) ← sha1.Hash (rng r);
    lo ← BigEndian.Uint32 (sha1.Bytes d);
    let next := u64 (next + lo) in
    Some (next, mkShaRing h 4 (Some d))
  | no_case => Some (0, r)
  end.

(** The digest bytes a call hands out: of the digest stored on entry, or of the
    one the call computes. *)
Inductive origin := stored | fresh.
Record read := mkRead { from : origin; lo : nat; hi : nat }.

Definition Uint64_reads (r : ShaRing) : list read :=
  match select (offset r) with
  | case_0 => [mkRead fresh 0 8]
  | case_4_8 | case_12 => [mkRead stored 0 8]
  | case_16 => [mkRead stored 16 20; mkRead fresh 0 4]
  | no_case => []
  end.

(** [n] successive calls: the values drawn, and the final generator. *)
Fixpoint draws (n : nat) (r : ShaRing) : option (list Z * ShaRing) :=
  match n with
  | O => Some ([], r)
  | S n' =>
    '(v, r) ← Uint64 r;
    '(vs, r) ← draws n' r;
    Some (v :: vs, r)
  end.

End gorng.

(** ** Package safe: sources of random words, byte extraction, channels *)
Module safe.

(** [type RandSource interface { Uint64() uint64 }]; a call returns the word
    and the source's next state, or panics. *)
Class RandSource (S : Type) := Uint64 : S -> option (Z * S).

#[global] Instance ShaRing_RandSource : RandSource gorng.ShaRing := gorng.Uint64.

(** How a call ends. [Unfinished] is the embedding's, for a loop cut short. *)
Inductive outcome (A : Type) :=
| Returns (a : A)
| Panics
| Unfinished.
Arguments Returns {A} a.
Arguments Panics {A}.
Arguments Unfinished {A}.

(** [make([]byte, len, cap)]: indexing sees the length only. *)
Definition make (len cap : Z) : list byte := replicate (Z.to_nat len) x00.

(** [bytes[i] = v] on a slice. *)
Definition store_byte (bytes : list byte) (i : Z) (v : byte) : option (list byte) :=
  if (0 <=? i) && (i <? Z.of_nat (length bytes))
  then Some (<[Z.to_nat i := v]> bytes) else None.

(** The inner loop [for i := 0; i < 8; i++], [k] iterations left. *)
Fixpoint Bytes_inner (k : nat) (i offset : Z) (bytes : list byte)
  (next bits : Z) : option (list byte * Z) :=
  match k with
  | O => Some (bytes, bits)
  | S k' =>
    if bits <? 8 then
      let mask := u64 (u64 (Z.shiftl 1 bits) - 1) in
      bytes ← store_byte bytes (offset + i) (byte_of_Z (Z.land next mask));
      Some (bytes, 0)
    else
      bytes ← store_byte bytes (offset + i) (byte_of_Z (Z.land next 0xFF));
      Bytes_inner k' (i + 1) offset bytes (Z.shiftr next 8) (Z.shiftr bits 3)
  end.

Section Extended.
Context {S : Type} `{RandSource S}.

(** The outer loop [for bits > 0]. *)
Fixpoint Bytes_outer (fuel : nat) (source : S) (offset : Z)
  (bytes : list byte) (bits : Z) : outcome (list byte * S) :=
  if 0 <? bits then
    match fuel with
    | O => Unfinished
    | Datatypes.S fuel' =>
      match Uint64 source with
      | None => Panics
      | Some (next, source) =>
        match Bytes_inner 8 0 offset bytes next bits with
        | None => Panics
        | Some (bytes, bits) => Bytes_outer fuel' source offset bytes bits
        end
      end
    end
  else Returns (bytes, source).

(** [extendedSource.Bytes(bits uint8)].  An iteration of the outer loop that
    does not panic leaves [bits] smaller, so [bits + 1] iterations are never
    used up. *)
Definition Bytes (source : S) (bits : Z) : outcome (list byte * S) :=
  if bits =? 0 then Returns ([], source)
  else
    let countBytes := bits / 8 in
    let countBytes :=
      if 0 <? Z.land bits 0x07 then u8 (countBytes + 1) else countBytes in
    let bytes := make 0 countBytes in
    let offset := 0 in
    Bytes_outer (Datatypes.S (Z.to_nat bits)) source offset bytes bits.

End Extended.

(** The part of the Go runtime the channel wrapper can act on: how many
    goroutines were started, and for each channel made the values sent on it
    and whether it was closed. *)
Record chan_state := mkChan { sent : list (list byte); closed : bool }.
Record runtime := mkRuntime { goroutines : nat; chans : list chan_state }.

(** [type randchan struct { source; bits; channel }]; a channel is named by
    its position in the runtime. *)
Record randchan (S : Type) := mkRandchan {
  source : S;
  bits : Z;
  channel : nat
}.
Arguments mkRandchan {S}.
Arguments source {S}.
Arguments bits {S}.
Arguments channel {S}.

(** [make(chan []byte)]. *)
Definition make_chan (rt : runtime) : nat * runtime :=
  (length (chans rt),
   mkRuntime (goroutines rt) (chans rt ++ [mkChan [] false])).

(** [func (rng randchan) start() {}]. *)
Definition start {S} (rng : randchan S) (rt : runtime) : runtime := rt.

Definition Channel {S} (rng : randchan S) : nat := channel rng.

(** [func (rng randchan) Close() {}]. *)
Definition Close {S} (rng : randchan S) (rt : runtime) : runtime := rt.

Definition New {S} (src : S) (bits : Z) (rt : runtime)
  : randchan S * runtime :=
  let '(channel, rt) := make_chan rt in
  let saferandom := mkRandchan src bits channel in
  let rt := start saferandom rt in
  (saferandom, rt).

End safe.

(** Feeding a message to a hasher as successive [Write] calls. *)
Fixpoint write_chunks (state : sha1.hasher) (chunks : list (list byte))
  : option sha1.hasher :=
  match chunks with
  | [] => Some state
  | c :: chunks' =>
    '(state, _) ← sha1.Write state c;
    write_chunks state chunks'
  end.

Definition hash_chunks (chunks : list (list byte)) : option sha1.digest :=
  state ← write_chunks sha1.New chunks;
  '(d, _) ← sha1.Hash state;
  Some d.

(** [%X] of a digest that was produced. *)
Definition digest_hex (d : option sha1.digest) : option string :=
  option_map (fun d => encode.hex (sha1.Bytes d)) d.

(** The digest bytes read by each of [n] successive calls. *)
Fixpoint draws_reads (n : nat) (r : gorng.ShaRing)
  : option (list (list gorng.read)) :=
  match n with
  | O => Some []
  | S n' =>
    '(_, r') ← gorng.Uint64 r;
    rs ← draws_reads n' r';
    Some (gorng.Uint64_reads r :: rs)
  end.

(** The bytes a read names, given the digest stored on entry and the digest
    the call left. *)
Definition read_bytes (st fr : option sha1.digest) (rd : gorng.read) : list byte :=
  match (match gorng.from rd with gorng.stored => st | gorng.fresh => fr end) with
  | Some d =>
    take (gorng.hi rd - gorng.lo rd) (drop (gorng.lo rd) (sha1.Bytes d))
  | None => []
  end.

(** Construct a generator from seed words and draw [n] values. *)
Definition seeded_draws (seed : Z) (more : list Z) (n : nat) : option (list Z) :=
  r ← gorng.NewSourceSeeded seed more;
  '(vs, _) ← gorng.draws n r;
  Some vs.

(** The generators a program can hold: what a constructor returns, what a
    call of [Uint64] leaves, and, the engine being held through a pointer
    that [New]'s caller keeps, the same generator around any engine state. *)
Inductive reachable (NewFromDigest : sha1.digest -> sha1.hasher)
  : gorng.ShaRing -> Prop :=
| reach_New source : reachable NewFromDigest (gorng.New source)
| reach_NewSourceSeeded seed more r :
    gorng.NewSourceSeeded seed more = Some r -> reachable NewFromDigest r
| reach_NewSourceDigest d :
    reachable NewFromDigest (gorng.NewSourceDigest NewFromDigest d)
| reach_Uint64 r v r' :
    reachable NewFromDigest r -> gorng.Uint64 r = Some (v, r') ->
    reachable NewFromDigest r'
| reach_engine r h :
    reachable NewFromDigest r ->
    reachable NewFromDigest (gorng.mkShaRing h (gorng.offset r) (gorng.digest r)).

(** A 65-byte message, bytes 0, 1, ..., 64. *)
Definition msg65 : list byte := map (fun n => byte_of_Z (Z.of_nat n)) (seq 0 65).

(** [bytes.Equal]. *)
Fixpoint bytes_Equal (a b : list byte) : bool :=
  match a, b with
  | [], [] => true
  | x :: a', y :: b' => Byte.eqb x y && bytes_Equal a' b'
  | _, _ => false
  end.

(** The split points [k] at which writing [m[:k]] and then [m[k:]] gives the
    digest of [m] written in one call. *)
Definition agreeing_splits (m : list byte) : list nat :=
  List.filter
    (fun k =>
       match hash_chunks [take k m; drop k m], sha1.HashBytes m with
       | Some x, Some y => bytes_Equal (sha1.Bytes x) (sha1.Bytes y)
       | _, _ => false
       end)
    (seq 0 (S (length m))).

(** The state [Reset] establishes, and the word drawn from it: the first
    eight bytes of the digest of the empty message. *)
Definition initial_chainValue : list Z :=
  [0x67452301; 0xefcdab89; 0x98badcfe; 0x10325476; 0xc3d2e1f0].

Definition empty_word : Z := 0xDA39A3EE5E6B4B0D.

(** The message schedule as the specification words it: [W[t]] is the block's
    word for [t < 16], and [ROTL1(W[t-3] xor W[t-8] xor W[t-14] xor W[t-16])]
    for every [t] in [16, 80). *)
Module spec.

(** Rotation of a 32-bit word to the left by [n] places, by arithmetic. *)
Definition ROTL (n : Z) (x : Z) : Z :=
  (x * 2 ^ n) mod 2 ^ 32 + x / 2 ^ (32 - n).

Definition W_next (W : list Z) : Z :=
  let t := length W in
  ROTL 1 (Z.lxor (Z.lxor (Z.lxor (get W (t - 3)) (get W (t - 8)))
                         (get W (t - 14))) (get W (t - 16))).

Fixpoint W_extend (n : nat) (W : list Z) : list Z :=
  match n with
  | O => W
  | S n' => W_extend n' (W ++ [W_next W])
  end.

Definition schedule (M : list Z) : list Z := W_extend 64 (take 16 M).

End spec.

(** The first recurrence, read at index [i] of an array. *)
Definition rec1 (w : list Z) (i : nat) : Z :=
  sha1.rotateL
    (Z.lxor (Z.lxor (Z.lxor (get w (i - 3)) (get w (i - 8))) (get w (i - 14)))
            (get w (i - 16))) 1.

(** The scratch array while the schedule is being filled: entries [16 .. t)
    obey the first recurrence. *)
Record sched_inv (w : list Z) (t : nat) : Prop := {
  inv_length : length w = sha1.SCRATCH_INTS;
  inv_range : Forall is_u32 w;
  inv_rec : forall i, (16 <= i < t)%nat -> get w i = rec1 w i
}.

(** ** The engine's state read as data *)
(** Word [j] of a byte string: the big-endian value of its bytes [4j .. 4j+4),
    or of as many of them as there are. *)
Definition word_at (s : list byte) (j : nat) : Z :=
  BigEndian.be_value (take 4 (drop (4 * j) s)).

(** The sixteen words of a block that holds the bytes [s]. *)
Definition pack (s : list byte) : list Z := map (word_at s) (seq 0 16).

(** The engine with chain value [cv], pending bytes [p] and byte count [L]. *)
Definition engine (cv : list Z) (p : list byte) (L : Z) : sha1.hasher :=
  sha1.mkHasher (pack p) L cv.

(** What one call of [mixBits] makes of the chain value. *)
Definition compress (cv blk : list Z) : list Z :=
  sha1.chainValue
    (fst (sha1.mixBits (sha1.mkHasher blk 0 cv) (replicate sha1.SCRATCH_INTS 0))).

(** Mixing [n] whole 64-byte blocks of [s] into a chain value; what is left
    of [s] stays pending. *)
Fixpoint absorb_blocks (n : nat) (cv : list Z) (s : list byte)
  : list Z * list byte :=
  match n with
  | O => (cv, s)
  | S n' => absorb_blocks n' (compress cv (pack (take 64 s))) (drop 64 s)
  end.

Definition absorb (cv : list Z) (s : list byte) : list Z * list byte :=
  absorb_blocks (length s / 64) cv s.

(** The message bytes of a block followed by the byte [0x80] and zero bytes
    up to the block's end. *)
Definition marked (p : list byte) : list byte :=
  p ++ x80 :: replicate (63 - length p) x00.

(** The two words [Hash] writes at the end of the block are the big-endian
    64-bit count of message bits. *)
Definition length_field (L : Z) : list byte :=
  BigEndian.bytes_of_Uint64 (u64 (8 * L)).

(** What [Hash] feeds to [mixBits] for an engine that holds [p] and has
    counted [L] bytes: [p], the byte [0x80], zero bytes up to 56 modulo 64,
    and the length field. *)
Definition tail_padding (p : list byte) (L : Z) : list byte :=
  p ++ x80 ::
    replicate (if (length p <? 56)%nat then 55 - length p else 119 - length p) x00
    ++ length_field L.

(** The engine after the bytes [m] have been taken in since the last reset. *)
Definition absorbed (m : list byte) : sha1.hasher :=
  engine (fst (absorb initial_chainValue m)) (snd (absorb initial_chainValue m))
         (u64 (Z.of_nat (length m))).

(** The bytes of [x] that [Write] takes in when the block holds [o] bytes. *)
Definition written (o : nat) (x : list byte) : list byte :=
  if (o + length x <? 64)%nat then x else take (64 - o) x ++ drop 64 x.

(** The bytes taken in by successive calls of [Write], after [m]. *)
Fixpoint taken (m : list byte) (chunks : list (list byte)) : list byte :=
  match chunks with
  | [] => m
  | c :: chunks' => taken (m ++ written (length m mod 64) c) chunks'
  end.

(** Every chunk finds an empty block or fits in what is left of the block. *)
Fixpoint fitting (n : nat) (chunks : list (list byte)) : Prop :=
  match chunks with
  | [] => True
  | c :: chunks' =>
    ((n mod 64 = 0)%nat \/ (n mod 64 + length c <= 64)%nat) /\
    fitting (n + length c) chunks'
  end.

(** The padded message: the byte [0x80], zero bytes up to 56 modulo 64, and
    the bit count in eight bytes. *)
Definition padded (m : list byte) : list byte :=
  m ++ x80 :: replicate ((119 - length m mod 64) mod 64) x00
    ++ length_field (Z.of_nat (length m)).

(** ** SHA-1 as FIPS 180-4 defines it

    The standard the doc comment of [mixBits] cites and transcribes, and the
    reference [Test_LargeMonteCarlo] holds the package against (there through
    crypto/sha1): the functions and constants of sections 4.1.1 and 4.2.1, the
    padding of 5.1.1, the initial hash value of 5.3.1 and the hash computation
    of 6.1.2, on words as integers in [0, 2^32). *)
Module FIPS.

Definition add (x y : Z) : Z := (x + y) mod 2 ^ 32.

Definition Ch (x y z : Z) : Z := Z.lxor (Z.land x y) (Z.land (Z.lnot x) z).
Definition Parity (x y z : Z) : Z := Z.lxor (Z.lxor x y) z.
Definition Maj (x y z : Z) : Z :=
  Z.lxor (Z.lxor (Z.land x y) (Z.land x z)) (Z.land y z).

Definition f (t : nat) : Z -> Z -> Z -> Z :=
  if (t <? 20)%nat then Ch
  else if (t <? 40)%nat then Parity
  else if (t <? 60)%nat then Maj
  else Parity.

Definition K (t : nat) : Z :=
  if (t <? 20)%nat then 0x5a827999
  else if (t <? 40)%nat then 0x6ed9eba1
  else if (t <? 60)%nat then 0x8f1bbcdc
  else 0xca62c1d6.

Definition H0 : list Z :=
  [0x67452301; 0xefcdab89; 0x98badcfe; 0x10325476; 0xc3d2e1f0].

(** Step [t] of 6.1.2 on the working variables [(a, b, c, d, e)]. *)
Definition step (W : list Z) (v : Z * Z * Z * Z * Z) (t : nat)
  : Z * Z * Z * Z * Z :=
  let '(a, b, c, d, e) := v in
  let T := add (add (add (add (spec.ROTL 5 a) (f t b c d)) e) (K t)) (nth t W 0) in
  (T, a, spec.ROTL 30 b, c, d).

(** The hash value after the block of words [M], from the hash value [H]. *)
Definition compress (H M : list Z) : list Z :=
  let W := spec.schedule M in
  let '(a, b, c, d, e) :=
    fold_left (step W) (seq 0 80)
              (nth 0 H 0, nth 1 H 0, nth 2 H 0, nth 3 H 0, nth 4 H 0) in
  [add a (nth 0 H 0); add b (nth 1 H 0); add c (nth 2 H 0);
   add d (nth 3 H 0); add e (nth 4 H 0)].

(** The message, the bit 1, zero bits up to 448 modulo 512, and the bit
    length in 64 bits. *)
Definition pad (m : list byte) : list byte :=
  m ++ x80 :: replicate (Z.to_nat ((55 - Z.of_nat (length m)) mod 64)) x00
    ++ BigEndian.bytes_of_Uint64 (8 * Z.of_nat (length m)).

(** The hash value after the first [n] 64-byte blocks of [s]. *)
Fixpoint iterate (n : nat) (H : list Z) (s : list byte) : list Z :=
  match n with
  | O => H
  | S n' => iterate n' (compress H (pack (take 64 s))) (drop 64 s)
  end.

Definition SHA1 (m : list byte) : list byte :=
  let p := pad m in
  concat (map BigEndian.bytes_of_Uint32 (iterate (length p / 64) H0 p)).

End FIPS.

(** The five working variables hold 32-bit words. *)
Definition vars_u32 (v : sha1.vars) : Prop :=
  let '(a, b, c, d, e) := v in
  is_u32 a /\ is_u32 b /\ is_u32 c /\ is_u32 d /\ is_u32 e.

(** The engine states a program can reach from [New]. *)
Inductive engine_reachable : sha1.hasher -> Prop :=
| reach_engine_New : engine_reachable sha1.New
| reach_engine_Write h x h' n :
    engine_reachable h -> sha1.Write h x = Some (h', n) -> engine_reachable h'
| reach_engine_Hash h d h' :
    engine_reachable h -> sha1.Hash h = Some (d, h') -> engine_reachable h'
| reach_engine_Reset h :
    engine_reachable h -> engine_reachable (sha1.Reset h).

(** ** The standard library's [os.ReadFile], as the commands see it *)
Module os.

(** What [os.ReadFile(path)] returns: the bytes, or an error. *)
Inductive file :=
| data (bytes : list byte)
| unreadable (err : string).

End os.

(** ** cmd/encode (cmd/encode/main.go) *)
Module cmd_encode.

(** The flags [--file], [--empty], [--base64] and the remaining arguments,
    after [flag.Parse()]. *)
Record flags := mkFlags {
  filename : string;
  empty : bool;
  base64output : bool;
  args : list string
}.

(** How [main] ends: it prints a line, prints the usage text, or [log.Fatal]
    ends the program. *)
Inductive outcome :=
| printed (line : string)
| usage
| fatal (err : string).

(** The input [main] selects; [f] is what reading [--file] would return. *)
Definition input (fl : flags) (f : os.file) : outcome + list byte :=
  if empty fl then inr []
  else if (0 <? String.length (filename fl))%nat then
    match f with
    | os.data bytes => inr bytes
    | os.unreadable e => inl (fatal e)
    end
  else
    match args fl with
    | a :: _ => inr (list_byte_of_string a)
    | [] => inl usage
    end.

Section Library.
(** [base64.StdEncoding.EncodeToString]. *)
Variable EncodeToString : list byte -> string.

(** [main]; [None] is a panic. *)
Definition main (fl : flags) (f : os.file) : option outcome :=
  match input fl f with
  | inl o => Some o
  | inr bytes =>
    digest ← sha1.HashBytes bytes;
    Some (printed (if base64output fl
                   then EncodeToString (sha1.Bytes digest)
                   else String.append "0x" (encode.hex (sha1.Bytes digest))))
  end.

End Library.

End cmd_encode.

(** ** cmd/dedup (cmd/dedup/main.go) *)
Module dedup.

Definition hash64 : Type := string.

(** [type Signature struct { Content hash64; Filepath string }]. *)
Record Signature := mkSignature {
  Content : hash64;
  Filepath : string
}.

(** What a call does to the world outside the index: [os.Rename], [os.Remove]
    (their errors are dropped by the code) and a send on [index.output]. *)
Inductive effect :=
| Rename (oldpath newpath : string)
| Remove (name : string)
| Send (sig : Signature).

(** [type ContentIndex struct]; the channel [output] is represented by the
    [Send] effects. *)
Record ContentIndex := mkContentIndex {
  index : gmap hash64 Signature;
  delete : bool
}.

(** [fs.DirEntry], as far as the program looks at it. *)
Record DirEntry := mkDirEntry {
  Name : string;
  IsDir : bool
}.

(** How the walk stands after a call of the callback: it goes on, the
    callback returned an error, or [log.Fatal] ended the program. *)
Inductive status :=
| walking
| failed (err : string)
| fatal (err : string).

(** One call of the callback by [filepath.WalkDir]: the path, the entry, the
    error handed in, and what reading the path would return. *)
Record step := mkStep {
  path : string;
  entry : DirEntry;
  err : option string;
  content : os.file
}.

Definition ignored : list string := [".gitignore"%string].

(** A call of the callback that reaches [addToIndex] with readable bytes. *)
Definition indexes (s : step) (bytes : list byte) : Prop :=
  IsDir (entry s) = false /\ err s = None /\
  existsb (String.eqb (Name (entry s))) ignored = false /\
  content s = os.data bytes.

Definition is_Send (e : effect) : Prop :=
  match e with Send _ => True | _ => False end.

Definition is_Remove (e : effect) : Prop :=
  match e with Remove _ => True | _ => False end.

Section Library.
(** [base64.StdEncoding.EncodeToString], [filepath.Base], [filepath.Join]. *)
Variable EncodeToString : list byte -> string.
Variable Base : string -> string.
Variable Join : list string -> string.

Definition BytesToBase64 (bytes : list byte) : hash64 := EncodeToString bytes.

Definition newContentIndex (deleteDuplicates : bool) : ContentIndex :=
  mkContentIndex ∅ deleteDuplicates.

(** [addToIndex]: the index after the call, the effects in order, and the
    error returned; [None] is a panic. *)
Definition addToIndex (cas : ContentIndex) (path : string) (f : os.file)
  : option (ContentIndex * list effect * option string) :=
  match f with
  | os.unreadable e => Some (cas, [], Some e)
  | os.data bytes =>
    digest ← sha1.HashBytes bytes;
    let sig64 := BytesToBase64 (sha1.Bytes digest) in
    match index cas !! sig64 with
    | None =>
      let signature := mkSignature sig64 path in
      Some (mkContentIndex (<[sig64 := signature]> (index cas)) (delete cas),
            [], None)
    | Some signature =>
      let basepath := Base (Filepath signature) in
      let out :=
        if negb (String.eqb (Filepath signature) basepath) then
          (if delete cas then
             let savedpath := Join ["."%string; "saved"%string; basepath] in
             [Rename (Filepath signature) savedpath;
              Send (mkSignature sig64 basepath)]
           else [])
          ++ [Send signature]
        else if delete cas then [Remove path]
        else [] in
      Some (cas, out ++ [Send (mkSignature sig64 path)], None)
    end
  end.

(** The callback [main] passes to [filepath.WalkDir]. *)
Definition visit (cas : ContentIndex) (s : step)
  : option (ContentIndex * list effect * status) :=
  if IsDir (entry s) then Some (cas, [], walking)
  else
    match err s with
    | Some e => Some (cas, [], fatal e)
    | None =>
      if existsb (String.eqb (Name (entry s))) ignored
      then Some (cas, [], walking)
      else
        '(cas, out, e) ← addToIndex cas (path s) (content s);
        Some (cas, out, match e with None => walking | Some e => failed e end)
    end.

(** [filepath.WalkDir] over the calls it makes, until one returns an error. *)
Fixpoint WalkDir (cas : ContentIndex) (steps : list step)
  : option (ContentIndex * list effect * status) :=
  match steps with
  | [] => Some (cas, [], walking)
  | s :: steps' =>
    '(cas, out, st) ← visit cas s;
    match st with
    | walking =>
      '(cas, out', st) ← WalkDir cas steps';
      Some (cas, out ++ out', st)
    | _ => Some (cas, out, st)
    end
  end.

(** The signature [addToIndex] files a content under. *)
Definition signature_of (bytes : list byte) : option hash64 :=
  digest ← sha1.HashBytes bytes; Some (BytesToBase64 (sha1.Bytes digest)).

(** The index holds no path that is its own base name. *)
Definition nested (cas : ContentIndex) : Prop :=
  forall k sg, index cas !! k = Some sg -> Filepath sg <> Base (Filepath sg).

(** What one call of the callback does, in the terms the walk needs. *)
Definition visit_post (cas : ContentIndex) (s : step)
  (cas' : ContentIndex) (out : list effect) (st : status) : Prop :=
  index cas ⊆ index cas' /\
  delete cas' = delete cas /\
  (delete cas = false -> Forall is_Send out) /\
  (nested cas -> Forall (fun e => ~ is_Remove e) out) /\
  (forall k sg, index cas' !! k = Some sg ->
     index cas !! k = Some sg \/
     exists bytes, indexes s bytes /\ signature_of bytes = Some k /\
                   sg = mkSignature k (path s)) /\
  (forall bytes, indexes s bytes ->
     st = walking /\
     exists k, signature_of bytes = Some k /\
               is_Some (index cas' !! k) /\
               (is_Some (index cas !! k) ->
                Send (mkSignature k (path s)) ∈ out)).

End Library.

End dedup.
(** Stand-ins for [filepath.Base] and [filepath.Join] on slash-separated
    paths, to run the walk on an example. *)
Fixpoint last_element (acc p : string) : string :=
  match p with
  | EmptyString => acc
  | String c p' =>
    if Ascii.eqb c "/"%char then last_element EmptyString p'
    else last_element (String.append acc (String c EmptyString)) p'
  end.

Definition join_elements (elems : list string) : string :=
  String.concat "/" elems.

(** Two files below a directory with the same three bytes, and a third with
    other bytes. *)
Definition walk_example : list dedup.step :=
  [dedup.mkStep "d/a" (dedup.mkDirEntry "a" false) None (os.data [x61; x62; x63]);
   dedup.mkStep "d/b" (dedup.mkDirEntry "b" false) None (os.data [x61; x62; x63]);
   dedup.mkStep "d/c" (dedup.mkDirEntry "c" false) None (os.data [x61])].

(** ** The intermediate revision of sha1/hash.go kept beside the current one:
    the chain value in a field [digest], the message schedule by the single
    recurrence, [Ch] and [Maj] as the standard writes them, and a [mixBits]
    that panics on a block that is not full *)
Module draft2.

Record hasher := mkHasher {
  block : list Z;
  length : Z;
  digest : list Z
}.

Definition rotateLeft (value bits : Z) : Z :=
  Z.lor (shl32 value bits) (Z.shiftr value (32 - bits)).

Definition majority (x y z : Z) : Z :=
  Z.lor (Z.lor (Z.land x y) (Z.land x z)) (Z.land y z).

(** [(b & c) ^ (^b & d)]; [^b] on a [uint32] flips its 32 bits. *)
Definition choice (b c d : Z) : Z :=
  Z.lxor (Z.land b c) (Z.land (Z.lxor b 0xFFFFFFFF) d).

Definition parity (b c d : Z) : Z := Z.lxor (Z.lxor b c) d.

Definition sched_load (blk : list Z) (scratch : list Z) (i : nat) : list Z :=
  set scratch i (get blk i).

Definition sched_step (scratch : list Z) (i : nat) : list Z :=
  let tmp := Z.lxor (Z.lxor (Z.lxor (get scratch (i - 3)) (get scratch (i - 8)))
                            (get scratch (i - 14))) (get scratch (i - 16)) in
  set scratch i (rotateLeft tmp 1).

Definition round (f : Z -> Z -> Z -> Z) (K : Z) (scratch : list Z)
  (v : Z * Z * Z * Z * Z) (i : nat) : Z * Z * Z * Z * Z :=
  let '(a, b, c, d, e) := v in
  let tmp :=
    add32 (add32 (add32 (add32 (rotateLeft a 5) (f b c d)) e) K) (get scratch i) in
  (tmp, a, rotateLeft b 30, c, d).

(** [mixBits]; [None] is the panic on [state.length&63 > 0]. *)
Definition mixBits (state : hasher) (scratch : list Z)
  : option (hasher * list Z) :=
  if 0 <? Z.land (length state) 63 then None
  else
    let scratch := fold_left (sched_load (block state)) (seq 0 16) scratch in
    let scratch := fold_left sched_step (seq 16 (sha1.SCRATCH_INTS - 16)) scratch in
    let dg := digest state in
    let v := (get dg 0, get dg 1, get dg 2, get dg 3, get dg 4) in
    let v := fold_left (round choice sha1.K_0 scratch) (seq 0 20) v in
    let v := fold_left (round parity sha1.K_1 scratch) (seq 20 20) v in
    let v := fold_left (round majority sha1.K_2 scratch) (seq 40 20) v in
    let '(a, b, c, d, e) :=
      fold_left (round parity sha1.K_3 scratch) (seq 60 20) v in
    let dg := set dg 0 (add32 (get dg 0) a) in
    let dg := set dg 1 (add32 (get dg 1) b) in
    let dg := set dg 2 (add32 (get dg 2) c) in
    let dg := set dg 3 (add32 (get dg 3) d) in
    let dg := set dg 4 (add32 (get dg 4) e) in
    Some (mkHasher (clear (block state)) (length state) dg, clear scratch).

End draft2.

(** * Properties *)

(** ** 32-bit words *)

Lemma is_u32_testbit x i : is_u32 x -> 32 <= i -> Z.testbit x i = false.
Proof.
  intros Hx Hi. rewrite <- (Z.mod_small x (2 ^ 32)) by exact Hx.
  apply Z.mod_pow2_bits_high. lia.
Qed.

Lemma is_u32_of_bits x :
  0 <= x -> (forall i, 32 <= i -> Z.testbit x i = false) -> is_u32 x.
Proof.
  intros H0 Hhi. unfold is_u32.
  assert (x mod 2 ^ 32 = x) as <-.
  { apply Z.bits_inj'; intros i Hi.
    destruct (Z.lt_ge_cases i 32).
    - apply Z.mod_pow2_bits_low; lia.
    - rewrite Z.mod_pow2_bits_high by lia. symmetry; apply Hhi; lia. }
  apply Z.mod_pos_bound. lia.
Qed.

Lemma is_u32_u32 x : is_u32 (u32 x).
Proof. unfold is_u32, u32. apply Z.mod_pos_bound. lia. Qed.

Lemma is_u32_lxor a b : is_u32 a -> is_u32 b -> is_u32 (Z.lxor a b).
Proof.
  intros Ha Hb. apply is_u32_of_bits.
  - apply Z.lxor_nonneg. unfold is_u32 in *. lia.
  - intros i Hi. rewrite Z.lxor_spec, !is_u32_testbit by assumption. reflexivity.
Qed.

(** Bit [i] of a rotated word. *)
Lemma rotateL_testbit x n i :
  is_u32 x -> 0 < n < 32 -> 0 <= i ->
  Z.testbit (sha1.rotateL x n) i =
  if i <? n then Z.testbit x (i + 32 - n)
  else if i <? 32 then Z.testbit x (i - n) else false.
Proof.
  intros Hx Hn Hi. unfold sha1.rotateL, shl32, u32.
  rewrite Z.lor_spec, Z.testbit_mod_pow2, Z.shiftl_spec, Z.shiftr_spec by lia.
  replace (i + (32 - n)) with (i + 32 - n) by lia.
  destruct (Z.ltb_spec i n), (Z.ltb_spec i 32); try lia; simpl.
  - rewrite (Z.testbit_neg_r x (i - n)) by lia. reflexivity.
  - rewrite (is_u32_testbit x (i + 32 - n)) by (assumption || lia).
    apply orb_false_r.
  - apply is_u32_testbit; [assumption | lia].
Qed.

Lemma rotateL_nonneg x n : 0 <= x -> 0 <= sha1.rotateL x n.
Proof.
  intros Hx. unfold sha1.rotateL, shl32, u32. apply Z.lor_nonneg. split.
  - apply Z.mod_pos_bound. lia.
  - apply Z.shiftr_nonneg. exact Hx.
Qed.

Lemma is_u32_rotateL x n : is_u32 x -> 0 < n < 32 -> is_u32 (sha1.rotateL x n).
Proof.
  intros Hx Hn. apply is_u32_of_bits.
  - apply rotateL_nonneg. unfold is_u32 in Hx. lia.
  - intros i Hi. rewrite rotateL_testbit by (assumption || lia).
    destruct (Z.ltb_spec i n), (Z.ltb_spec i 32); lia || reflexivity.
Qed.

Ltac u32_side :=
  solve [ assumption | lia
        | apply is_u32_rotateL; u32_side
        | apply is_u32_lxor; u32_side
        | apply is_u32_u32 ].

(** Rotation distributes over exclusive or. *)
Lemma rotateL_lxor a b n :
  is_u32 a -> is_u32 b -> 0 < n < 32 ->
  sha1.rotateL (Z.lxor a b) n = Z.lxor (sha1.rotateL a n) (sha1.rotateL b n).
Proof.
  intros Ha Hb Hn. apply Z.bits_inj'; intros i Hi.
  rewrite Z.lxor_spec, !rotateL_testbit by u32_side.
  destruct (i <? n); [apply Z.lxor_spec |].
  destruct (i <? 32); [apply Z.lxor_spec | reflexivity].
Qed.

(** Rotating by one place twice is rotating by two. *)
Lemma rotateL_1_1 x : is_u32 x -> sha1.rotateL (sha1.rotateL x 1) 1 = sha1.rotateL x 2.
Proof.
  intros Hx. apply Z.bits_inj'; intros i Hi.
  rewrite (rotateL_testbit (sha1.rotateL x 1)) by u32_side.
  rewrite (rotateL_testbit x 2) by (assumption || lia).
  destruct (Z.ltb_spec i 1), (Z.ltb_spec i 2), (Z.ltb_spec i 32); try lia;
    rewrite rotateL_testbit by (assumption || lia).
  - destruct (Z.ltb_spec (i + 32 - 1) 1), (Z.ltb_spec (i + 32 - 1) 32); try lia.
    f_equal; lia.
  - destruct (Z.ltb_spec (i - 1) 1); try lia. f_equal; lia.
  - destruct (Z.ltb_spec (i - 1) 1), (Z.ltb_spec (i - 1) 32); try lia.
    f_equal; lia.
Qed.

(** The code's shift-and-or rotation is the arithmetic rotation. *)
Lemma rotateL_ROTL x n : is_u32 x -> 0 < n < 32 -> sha1.rotateL x n = spec.ROTL n x.
Proof.
  intros Hx Hn. unfold sha1.rotateL, spec.ROTL, shl32, u32.
  rewrite Z.shiftl_mul_pow2, Z.shiftr_div_pow2 by lia.
  apply Z.or_to_plus.
  apply Z.bits_inj'; intros i Hi.
  rewrite Z.land_spec, Z.bits_0, Z.testbit_mod_pow2 by lia.
  rewrite <- Z.shiftl_mul_pow2, <- Z.shiftr_div_pow2 by lia.
  rewrite Z.shiftl_spec, Z.shiftr_spec by lia.
  destruct (Z.ltb_spec i 32); simpl; [| reflexivity].
  destruct (Z.lt_ge_cases i n).
  - rewrite (Z.testbit_neg_r x (i - n)) by lia. reflexivity.
  - rewrite (is_u32_testbit x (i + (32 - n))) by (assumption || lia).
    apply andb_false_r.
Qed.


(** ** Arrays *)

Lemma length_set a i v : length (set a i v) = length a.
Proof. apply length_insert. Qed.

Lemma get_set_eq a i v : (i < length a)%nat -> get (set a i v) i = v.
Proof.
  intros Hi. unfold get, set. rewrite list_lookup_insert_eq by exact Hi.
  reflexivity.
Qed.

Lemma get_set_ne a i j v : i <> j -> get (set a i v) j = get a j.
Proof.
  intros Hne. unfold get, set. rewrite list_lookup_insert_ne by exact Hne.
  reflexivity.
Qed.

Lemma get_is_u32 a i : Forall is_u32 a -> is_u32 (get a i).
Proof.
  intros Ha. unfold get. destruct (a !! i) as [x|] eqn:E; simpl.
  - exact (Forall_lookup_1 _ _ _ _ Ha E).
  - unfold is_u32. lia.
Qed.

Lemma Forall_set (P : Z -> Prop) a i v : Forall P a -> P v -> Forall P (set a i v).
Proof. intros Ha Hv. unfold set. apply Forall_insert; assumption. Qed.

Lemma get_app_l (a b : list Z) i : (i < length a)%nat -> get (a ++ b) i = get a i.
Proof. intros Hi. unfold get. rewrite lookup_app_l by exact Hi. reflexivity. Qed.

Lemma get_app_here (a : list Z) v : get (a ++ [v]) (length a) = v.
Proof.
  unfold get. rewrite lookup_app_r by lia. rewrite Nat.sub_diag. reflexivity.
Qed.

(** Two arrays of one length that agree at every index are equal. *)
Lemma array_ext (a b : list Z) :
  length a = length b ->
  (forall i, (i < length a)%nat -> get a i = get b i) -> a = b.
Proof.
  intros Hlen Hget. apply list_eq. intros i.
  destruct (Nat.lt_ge_cases i (length a)) as [Hi|Hi].
  - specialize (Hget i Hi). unfold get in Hget.
    destruct (lookup_lt_is_Some_2 a i Hi) as [x Hx].
    destruct (lookup_lt_is_Some_2 b i ltac:(lia)) as [y Hy].
    rewrite Hx, Hy in *. simpl in Hget. congruence.
  - rewrite !lookup_ge_None_2 by lia. reflexivity.
Qed.

(** ** The message schedule *)


Lemma sched_step1_rec1 w i : sha1.sched_step1 w i = set w i (rec1 w i).
Proof. reflexivity. Qed.

Lemma rec1_set w t v i : (i <= t)%nat -> (3 <= i)%nat -> rec1 (set w t v) i = rec1 w i.
Proof.
  intros Hit Hi. unfold rec1. rewrite !get_set_ne by lia. reflexivity.
Qed.

Lemma is_u32_rec1 w i : Forall is_u32 w -> is_u32 (rec1 w i).
Proof.
  intros Hw. unfold rec1.
  apply is_u32_rotateL; [| lia].
  repeat apply is_u32_lxor; apply get_is_u32; exact Hw.
Qed.

Lemma sched_step1_inv w t :
  sched_inv w t -> (16 <= t < 80)%nat -> sched_inv (sha1.sched_step1 w t) (S t).
Proof.
  intros [Hlen Hrange Hrec] Ht. rewrite sched_step1_rec1. split.
  - rewrite length_set. exact Hlen.
  - apply Forall_set; [exact Hrange | apply is_u32_rec1; exact Hrange].
  - intros i Hi. rewrite rec1_set by lia.
    destruct (Nat.eq_dec i t) as [->|Hne].
    + apply get_set_eq. rewrite Hlen. unfold sha1.SCRATCH_INTS. lia.
    + rewrite get_set_ne by lia. apply Hrec. lia.
Qed.

(** The algebra behind the second recurrence: unfold the first recurrence once
    in each of its four operands, and all but four words cancel. *)
Lemma recurrence_identity x6 x11 x16 x17 x19 x22 x24 x28 x30 x32 :
  Forall is_u32 [x6; x11; x16; x17; x19; x22; x24; x28; x30; x32] ->
  let X a b c d := Z.lxor (Z.lxor (Z.lxor a b) c) d in
  sha1.rotateL (X x6 x16 x28 x32) 2 =
  sha1.rotateL
    (X (sha1.rotateL (X x6 x11 x17 x19) 1) (sha1.rotateL (X x11 x16 x22 x24) 1)
       (sha1.rotateL (X x17 x22 x28 x30) 1) (sha1.rotateL (X x19 x24 x30 x32) 1)) 1.
Proof.
  intros Hall X.
  repeat match goal with
         | H : Forall _ (_ :: _) |- _ => apply Forall_cons_1 in H; destruct H
         end.
  unfold X. rewrite <- !rotateL_lxor by u32_side.
  rewrite rotateL_1_1 by u32_side.
  f_equal. apply Z.bits_inj'; intros i Hi. rewrite !Z.lxor_spec. btauto.
Qed.

Lemma sched_step2_step1 w t :
  sched_inv w t -> (32 <= t < 80)%nat -> sha1.sched_step2 w t = sha1.sched_step1 w t.
Proof.
  intros [Hlen Hrange Hrec] Ht. unfold sha1.sched_step2, sha1.sched_step1.
  f_equal.
  set (lhs := sha1.rotateL _ 2).
  rewrite (Hrec (t - 3)%nat), (Hrec (t - 8)%nat), (Hrec (t - 14)%nat),
          (Hrec (t - 16)%nat) by lia.
  subst lhs. unfold rec1. rewrite <- !Nat.sub_add_distr. simpl Nat.add.
  apply recurrence_identity.
  repeat (apply Forall_cons; split; [apply get_is_u32; exact Hrange |]).
  apply Forall_nil_2.
Qed.

(** From index 32 on, running the loop with the second recurrence is running
    it with the first. *)
Lemma fold_step2_step1 n : forall t w,
  sched_inv w t -> (32 <= t)%nat -> (t + n <= 80)%nat ->
  fold_left sha1.sched_step2 (seq t n) w = fold_left sha1.sched_step1 (seq t n) w.
Proof.
  induction n as [|n IH]; intros t w Hinv Ht Hn; [reflexivity |].
  simpl. rewrite sched_step2_step1 by (assumption || lia).
  apply IH; [| lia | lia].
  apply sched_step1_inv; [assumption | lia].
Qed.

Lemma fold_step1_inv n : forall t w,
  sched_inv w t -> (16 <= t)%nat -> (t + n <= 80)%nat ->
  sched_inv (fold_left sha1.sched_step1 (seq t n) w) (t + n).
Proof.
  induction n as [|n IH]; intros t w Hinv Ht Hn; simpl.
  - rewrite Nat.add_0_r. exact Hinv.
  - replace (t + S n)%nat with (S t + n)%nat by lia.
    apply IH; [| lia | lia]. apply sched_step1_inv; [assumption | lia].
Qed.

(** The first loop copies the block into the first 16 entries. *)
Lemma fold_load blk n : forall s w,
  let w' := fold_left (sha1.sched_load blk) (seq s n) w in
  length w' = length w /\
  (Forall is_u32 blk -> Forall is_u32 w -> Forall is_u32 w') /\
  forall i, (i < length w)%nat ->
    get w' i = if decide (s <= i < s + n)%nat then get blk i else get w i.
Proof.
  induction n as [|n IH]; intros s w; simpl.
  - split; [reflexivity |]. split; [auto |].
    intros i _. destruct (decide _); [lia | reflexivity].
  - destruct (IH (S s) (sha1.sched_load blk w s)) as (Hlen & Hrange & Hget).
    unfold sha1.sched_load in *. rewrite length_set in *.
    split; [exact Hlen |]. split.
    + intros Hb Hw. apply Hrange; [exact Hb |].
      apply Forall_set; [exact Hw | apply get_is_u32; exact Hb].
    + intros i Hi. rewrite Hget by exact Hi.
      destruct (decide (S s <= i < S s + n)%nat), (decide (s <= i < s + S n)%nat);
        try lia; try reflexivity.
      * destruct (Nat.eq_dec s i) as [->|Hne]; [| lia].
        apply get_set_eq. exact Hi.
      * apply get_set_ne. lia.
Qed.

(** What the code computes: the first recurrence run over [16 .. 80) on the
    loaded array. *)
Lemma schedule_single_recurrence blk scratch :
  length scratch = sha1.SCRATCH_INTS ->
  Forall is_u32 blk -> Forall is_u32 scratch ->
  sha1.schedule blk scratch =
  fold_left sha1.sched_step1 (seq 16 64)
            (fold_left (sha1.sched_load blk) (seq 0 16) scratch).
Proof.
  intros Hlen Hb Hs. unfold sha1.schedule.
  destruct (fold_load blk 16 0 scratch) as (Hlen0 & Hrange0 & _).
  set (w0 := fold_left (sha1.sched_load blk) (seq 0 16) scratch) in *.
  assert (sched_inv w0 16) as Hinv0.
  { split; [congruence | auto | intros i Hi; lia]. }
  change (seq 16 64) with (seq 16 16 ++ seq 32 48).
  rewrite fold_left_app.
  apply fold_step2_step1; [| lia | lia].
  exact (fold_step1_inv 16 16 w0 Hinv0 ltac:(lia) ltac:(lia)).
Qed.

(** The array filled by the first recurrence agrees, entry by entry, with the
    list the specification's recurrence builds by appending. *)
Lemma fold_step1_W_extend n : forall t w W,
  length W = t -> (16 <= t)%nat -> (t + n <= 80)%nat ->
  length w = sha1.SCRATCH_INTS -> Forall is_u32 w ->
  (forall i, (i < t)%nat -> get w i = get W i) ->
  forall i, (i < t + n)%nat ->
    get (fold_left sha1.sched_step1 (seq t n) w) i = get (spec.W_extend n W) i.
Proof.
  induction n as [|n IH]; intros t w W HW Ht Hn Hlen Hrange Hpre i Hi; simpl.
  - apply Hpre. lia.
  - apply (IH (S t)); try lia.
    + rewrite length_app. simpl. lia.
    + rewrite sched_step1_rec1, length_set. exact Hlen.
    + rewrite sched_step1_rec1. apply Forall_set; [exact Hrange |].
      apply is_u32_rec1. exact Hrange.
    + intros j Hj. rewrite sched_step1_rec1.
      destruct (Nat.eq_dec j t) as [->|Hne].
      * rewrite get_set_eq by (rewrite Hlen; unfold sha1.SCRATCH_INTS; lia).
        rewrite <- HW at 2. rewrite get_app_here.
        unfold rec1, spec.W_next. rewrite HW.
        rewrite !Hpre by lia.
        apply rotateL_ROTL; [| lia].
        rewrite <- !Hpre by lia.
        repeat apply is_u32_lxor; apply get_is_u32; exact Hrange.
      * rewrite get_set_ne by lia. rewrite get_app_l by lia. apply Hpre. lia.
Qed.

Lemma length_W_extend n : forall W, length (spec.W_extend n W) = (length W + n)%nat.
Proof.
  induction n as [|n IH]; intros W; simpl; [lia |].
  rewrite IH, length_app. simpl. lia.
Qed.

Lemma length_fold_step1 l : forall w,
  length (fold_left sha1.sched_step1 l w) = length w.
Proof.
  induction l as [|i l IH]; intros w; simpl; [reflexivity |].
  rewrite IH. apply length_set.
Qed.

(** C8.  For every block of sixteen 32-bit words (and whatever the scratch
    array held before), the 80-word schedule that [mixBits] computes, with the
    first recurrence on [16, 32) and the rotate-by-two recurrence on [32, 80),
    is word for word the schedule of the specification's single recurrence
    [W[t] = ROTL1(W[t-3] xor W[t-8] xor W[t-14] xor W[t-16])] on [16, 80). *)
Theorem schedule_refines_spec (blk scratch : list Z) :
  length blk = sha1.BLOCK_INTS -> Forall is_u32 blk ->
  length scratch = sha1.SCRATCH_INTS -> Forall is_u32 scratch ->
  sha1.schedule blk scratch = spec.schedule blk.
Proof.
  intros Hb Hbr Hs Hsr.
  rewrite schedule_single_recurrence by assumption.
  destruct (fold_load blk 16 0 scratch) as (Hlen0 & Hrange0 & Hget0).
  set (w0 := fold_left (sha1.sched_load blk) (seq 0 16) scratch) in *.
  unfold spec.schedule.
  assert (length (take 16 blk) = 16%nat) as Htake.
  { rewrite length_take. rewrite Hb. reflexivity. }
  apply array_ext.
  - rewrite length_fold_step1, length_W_extend, Htake, Hlen0, Hs. reflexivity.
  - rewrite length_fold_step1, Hlen0, Hs. intros i Hi.
    apply (fold_step1_W_extend 64 16 w0 (take 16 blk)); try lia; auto.
    intros j Hj. rewrite Hget0 by (rewrite Hs; unfold sha1.SCRATCH_INTS; lia).
    destruct (decide _); [| lia].
    unfold get. rewrite lookup_take_lt by lia. reflexivity.
Qed.

Lemma schedule_refines_spec_witness :
  sha1.schedule (0x80000000 :: replicate 15 0) (replicate 80 0) =
  spec.schedule (0x80000000 :: replicate 15 0).
Proof.
  apply schedule_refines_spec.
  - reflexivity.
  - apply (bool_decide_unpack (Forall is_u32 _)). vm_compute. exact I.
  - reflexivity.
  - apply (bool_decide_unpack (Forall is_u32 _)). vm_compute. exact I.
Defined.

(** ** The engine's shape is kept by every operation *)


Lemma New_unfold :
  sha1.New = sha1.mkHasher (replicate 16 0) 0 initial_chainValue.
Proof. reflexivity. Qed.

Lemma Reset_unfold state :
  sha1.wf state ->
  sha1.Reset state = sha1.mkHasher (replicate 16 0) 0 initial_chainValue.
Proof.
  destruct state as [blk len cv]. unfold sha1.wf; simpl. intros [Hb Hc].
  unfold sha1.Reset, clear; simpl. rewrite Hb.
  do 5 (destruct cv as [|? cv]; [discriminate Hc |]).
  destruct cv; [reflexivity | discriminate Hc].
Qed.

Lemma New_wf : sha1.wf sha1.New.
Proof. split; reflexivity. Qed.

Lemma length_clear a : length (clear a) = length a.
Proof. apply length_replicate. Qed.

Lemma mixBits_shape state scratch :
  let state' := fst (sha1.mixBits state scratch) in
  sha1.block state' = clear (sha1.block state) /\
  sha1.length state' = sha1.length state /\
  length (sha1.chainValue state') = length (sha1.chainValue state).
Proof.
  unfold sha1.mixBits.
  destruct (sha1.rounds _ _) as [[[[a b] c] d] e]. simpl.
  rewrite !length_set. auto.
Qed.

Lemma mixBits_wf state scratch :
  sha1.wf state -> sha1.wf (fst (sha1.mixBits state scratch)).
Proof.
  intros [Hb Hc]. destruct (mixBits_shape state scratch) as (Eb & _ & Ec).
  split; [rewrite Eb, length_clear; exact Hb | rewrite Ec; exact Hc].
Qed.

Lemma load_Some a i :
  0 <= i < Z.of_nat (length a) -> exists v, load a i = Some v.
Proof.
  intros Hi. unfold load. destruct (Z.leb_spec 0 i); [| lia].
  apply lookup_lt_is_Some_2. lia.
Qed.

Lemma store_Some a i v :
  0 <= i < Z.of_nat (length a) ->
  exists a', store a i v = Some a' /\ length a' = length a.
Proof.
  intros Hi. unfold store.
  destruct (Z.leb_spec 0 i), (Z.ltb_spec i (Z.of_nat (length a))); try lia.
  simpl. eexists; split; [reflexivity | apply length_insert].
Qed.

Lemma store_length a i v a' : store a i v = Some a' -> length a' = length a.
Proof.
  unfold store. destruct (_ && _); [| discriminate].
  intros [= <-]. apply length_insert.
Qed.

(** On a 16-word block, with the position a block offset, [write1bit] does not
    panic. *)
Lemma write1bit_Some blk pos :
  length blk = sha1.BLOCK_INTS -> 0 <= pos < 64 ->
  exists blk', sha1.write1bit blk pos = Some blk' /\ length blk' = sha1.BLOCK_INTS.
Proof.
  intros Hb Hpos. unfold sha1.write1bit, sha1.BLOCKITEM_MASK.
  assert (0 <= Z.shiftr pos 2 < Z.of_nat (length blk)) as Hi.
  { rewrite Hb, Z.shiftr_div_pow2 by lia. unfold sha1.BLOCK_INTS.
    change (2 ^ 2) with 4. split; [apply Z.div_pos; lia |].
    apply Z.div_lt_upper_bound; lia. }
  destruct (load_Some blk _ Hi) as [v Hv].
  assert (0 <= Z.land pos 3 < 4) as Hm.
  { change 3 with (Z.ones 2). rewrite Z.land_ones by lia.
    apply Z.mod_pos_bound. lia. }
  rewrite Hv. simpl.
  assert (Z.land pos 3 = 0 \/ Z.land pos 3 = 1 \/ Z.land pos 3 = 2 \/
          Z.land pos 3 = 3) as [E|[E|[E|E]]] by lia; rewrite E;
    match goal with
    | |- context [store blk ?i ?x] =>
      destruct (store_Some blk i x Hi) as (blk' & -> & Hlen)
    end; exists blk'; split; congruence.
Qed.

Lemma length_newDigest ints : length (sha1.Bytes (sha1.newDigest ints)) = 20%nat.
Proof. reflexivity. Qed.

(** [Hash] does not panic, its digest has 20 bytes, and it leaves the engine
    as [New] makes it. *)
Lemma Hash_Some state :
  sha1.wf state ->
  exists d, sha1.Hash state = Some (d, sha1.New) /\ length (sha1.Bytes d) = 20%nat.
Proof.
  intros [Hb Hc]. unfold sha1.Hash.
  assert (0 <= u8 (Z.land (sha1.length state) 63) < 64) as Hpos.
  { change 63 with (Z.ones 6). rewrite Z.land_ones by lia. unfold u8.
    pose proof (Z.mod_pos_bound (sha1.length state) (2 ^ 6) ltac:(lia)).
    rewrite Z.mod_small; lia. }
  destruct (write1bit_Some _ _ Hb Hpos) as (blk & -> & Hblk).
  cbn [mbind option_bind sha1.block sha1.length sha1.chainValue].
  match goal with
  | |- context [let '(_, _) := ?p in _] => destruct p as [st1 sc1] eqn:E1
  end.
  assert (sha1.wf st1) as Hwf1.
  { destruct (56 <=? _).
    - match type of E1 with
      | sha1.mixBits ?s ?sc = _ => pose proof (mixBits_wf s sc) as W
      end.
      rewrite E1 in W. apply W. split; assumption.
    - injection E1 as <- _. split; assumption. }
  match goal with
  | |- context [let '(_, _) := ?p in _] => destruct p as [st2 sc2] eqn:E2
  end.
  assert (sha1.wf st2) as Hwf2.
  { match type of E2 with
    | sha1.mixBits ?s ?sc = _ => pose proof (mixBits_wf s sc) as W
    end.
    rewrite E2 in W. apply W. destruct Hwf1 as [Hb1 Hc1].
    split; cbn [sha1.block sha1.chainValue];
      [rewrite !length_set; exact Hb1 | exact Hc1]. }
  eexists. split; [| apply length_newDigest].
  rewrite (Reset_unfold st2 Hwf2), New_unfold. reflexivity.
Qed.

(** ** Known answers *)

(** C1.  [HashBytes] (a [Write] of the whole input on a fresh hasher, then
    [Hash]) returns the NIST SHA-1 digest on the three known-answer inputs:
    the empty input, and the "lazy dog" and "lazy cog" sentences. *)
Theorem HashBytes_known_answers :
  digest_hex (sha1.HashBytes (list_byte_of_string "")) =
    Some "DA39A3EE5E6B4B0D3255BFEF95601890AFD80709"%string /\
  digest_hex (sha1.HashBytes
      (list_byte_of_string "The quick brown fox jumps over the lazy dog")) =
    Some "2FD4E1C67A2D28FCED849EE1BB76E7391B93EB12"%string /\
  digest_hex (sha1.HashBytes
      (list_byte_of_string "The quick brown fox jumps over the lazy cog")) =
    Some "DE9F2C7FD25E1B3AFAD3E85A0BD17D9B100DB4B3"%string.
Proof.
  split; [vm_compute; reflexivity |].
  split; vm_compute; reflexivity.
Qed.

(** [HashBytes] is one [Write] on a fresh hasher followed by [Hash]. *)
Lemma HashBytes_one_chunk input : hash_chunks [input] = sha1.HashBytes input.
Proof.
  unfold hash_chunks, sha1.HashBytes, write_chunks.
  destruct (sha1.Write sha1.New input) as [[state n]|]; reflexivity.
Qed.

(** The rendering reads the digest's bytes in order. *)
Example empty_digest_bytes :
  option_map sha1.Bytes (sha1.HashBytes []) =
  Some [xda; x39; xa3; xee; x5e; x6b; x4b; x0d; x32; x55;
        xbf; xef; x95; x60; x18; x90; xaf; xd8; x07; x09].
Proof. vm_compute. reflexivity. Qed.

(** ** Reset *)

(** C3.  [Reset], and the reset that ends [Hash], write the five SHA-1
    initialization constants into slots 0 to 4 of [chainValue] in order, zero
    the sixteen words of the block and zero the length. *)
Theorem Reset_writes_initial_state (state : sha1.hasher) :
  sha1.wf state ->
  (sha1.chainValue (sha1.Reset state) =
     [0x67452301; 0xEFCDAB89; 0x98BADCFE; 0x10325476; 0xC3D2E1F0] /\
   sha1.block (sha1.Reset state) = replicate 16 0 /\
   sha1.length (sha1.Reset state) = 0) /\
  exists d state',
    sha1.Hash state = Some (d, state') /\
    sha1.chainValue state' =
      [0x67452301; 0xEFCDAB89; 0x98BADCFE; 0x10325476; 0xC3D2E1F0] /\
    sha1.block state' = replicate 16 0 /\
    sha1.length state' = 0.
Proof.
  intros Hwf. split.
  - rewrite (Reset_unfold state Hwf). repeat split.
  - destruct (Hash_Some state Hwf) as (d & Hd & _).
    exists d, sha1.New. split; [exact Hd |]. repeat split.
Qed.

Lemma Reset_writes_initial_state_witness :
  let dirty := sha1.mkHasher (replicate 16 7) 99 (replicate 5 1) in
  (sha1.chainValue (sha1.Reset dirty) =
     [0x67452301; 0xEFCDAB89; 0x98BADCFE; 0x10325476; 0xC3D2E1F0] /\
   sha1.block (sha1.Reset dirty) = replicate 16 0 /\
   sha1.length (sha1.Reset dirty) = 0) /\
  exists d state',
    sha1.Hash dirty = Some (d, state') /\
    sha1.chainValue state' =
      [0x67452301; 0xEFCDAB89; 0x98BADCFE; 0x10325476; 0xC3D2E1F0] /\
    sha1.block state' = replicate 16 0 /\
    sha1.length state' = 0.
Proof.
  apply Reset_writes_initial_state. split; reflexivity.
Defined.

(** The earlier draft's [Reset] assigns slot 0 five times: slot 0 ends with the
    fifth constant and slots 1 to 4 keep what they held. *)
Lemma draft_Reset_slot_0_only d0 d1 d2 d3 d4 blk len :
  draft.digest (draft.Reset (draft.mkHasher blk len [d0; d1; d2; d3; d4])) =
  [0xc3d2e1f0; d1; d2; d3; d4].
Proof. reflexivity. Qed.

(** ** The generator *)

Lemma Uint64_case_0 r :
  gorng.offset r = 0 ->
  gorng.Uint64 r =
  match sha1.Hash (gorng.rng r) with
  | Some (d, h) =>
    match BigEndian.Uint64 (sha1.Bytes d) with
    | Some next => Some (next, gorng.mkShaRing h 0 (Some d))
    | None => None
    end
  | None => None
  end.
Proof.
  intros H0. unfold gorng.Uint64. rewrite H0. cbn [gorng.select].
  destruct (sha1.Hash (gorng.rng r)) as [[d h]|]; reflexivity.
Qed.

(** What a call at offset 0 returns and leaves. *)
Lemma Uint64_at_0 r v r' :
  gorng.offset r = 0 -> gorng.Uint64 r = Some (v, r') ->
  gorng.offset r' = 0 /\
  exists d, sha1.Hash (gorng.rng r) = Some (d, gorng.rng r') /\
            gorng.digest r' = Some d /\
            v = BigEndian.be_value (take 8 (sha1.Bytes d)).
Proof.
  intros H0 HU. rewrite (Uint64_case_0 r H0) in HU.
  destruct (sha1.Hash (gorng.rng r)) as [[d h]|]; [| discriminate].
  unfold BigEndian.Uint64 in HU.
  destruct (8 <=? length (sha1.Bytes d))%nat; [| discriminate].
  injection HU as <- <-. cbn [gorng.offset gorng.rng gorng.digest]. eauto.
Qed.

Lemma Uint64_Some r :
  gorng.offset r = 0 -> sha1.wf (gorng.rng r) ->
  exists d, sha1.Hash (gorng.rng r) = Some (d, sha1.New) /\
    gorng.Uint64 r =
    Some (BigEndian.be_value (take 8 (sha1.Bytes d)),
          gorng.mkShaRing sha1.New 0 (Some d)).
Proof.
  intros H0 Hwf. destruct (Hash_Some _ Hwf) as (d & Hd & Hlen).
  exists d. split; [exact Hd |].
  rewrite (Uint64_case_0 r H0), Hd.
  unfold BigEndian.Uint64. rewrite Hlen. reflexivity.
Qed.

Lemma NewSourceSeeded_offset seed more r :
  gorng.NewSourceSeeded seed more = Some r -> gorng.offset r = 0.
Proof.
  unfold gorng.NewSourceSeeded.
  destruct (BigEndian.PutUint64_at _ 0 seed) as [b|]; [| discriminate].
  cbn [mbind option_bind].
  destruct (gorng.put_more b 0 more) as [b'|]; [| discriminate].
  cbn [mbind option_bind].
  destruct (sha1.Write sha1.New b') as [[h n]|]; [| discriminate].
  cbn [mbind option_bind].
  intros [= <-]. reflexivity.
Qed.

Section Reachable.
Variable NewFromDigest : sha1.digest -> sha1.hasher.

Lemma reachable_offset r :
  reachable NewFromDigest r -> gorng.offset r = 0.
Proof.
  induction 1 as [source | seed more r Hr | d | r v r' _ IH HU | r h _ IH].
  - reflexivity.
  - exact (NewSourceSeeded_offset _ _ _ Hr).
  - reflexivity.
  - exact (proj1 (Uint64_at_0 r v r' IH HU)).
  - exact IH.
Qed.

(** C10.  Every constructor leaves [offset] at 0 and a call of [Uint64]
    entered at offset 0 leaves it at 0; so every generator reachable from a
    constructor has offset 0, each call of [Uint64] on it takes the [case 0]
    arm of the switch (the arms for 4, 8, 12 and 16 are never taken), computes
    a digest with [Hash] and returns the big-endian value of its first eight
    bytes; on an engine of the right shape the call does return. *)
Theorem reachable_takes_case_0 (r : gorng.ShaRing) :
  reachable NewFromDigest r ->
  gorng.offset r = 0 /\
  gorng.select (gorng.offset r) = gorng.case_0 /\
  (forall v r', gorng.Uint64 r = Some (v, r') ->
     gorng.offset r' = 0 /\
     exists d, sha1.Hash (gorng.rng r) = Some (d, gorng.rng r') /\
               gorng.digest r' = Some d /\
               v = BigEndian.be_value (take 8 (sha1.Bytes d))) /\
  (sha1.wf (gorng.rng r) -> exists v r', gorng.Uint64 r = Some (v, r')).
Proof.
  intros Hr. pose proof (reachable_offset _ Hr) as H0.
  split; [exact H0 |]. split; [rewrite H0; reflexivity |]. split.
  - intros v r' HU. exact (Uint64_at_0 r v r' H0 HU).
  - intros Hwf. destruct (Uint64_Some r H0 Hwf) as (d & _ & HU). eauto.
Qed.

(** A reachable generator reads bytes 0 to 8 of a digest it has just computed,
    and nothing of the digest it stored. *)
Lemma reachable_reads r :
  reachable NewFromDigest r ->
  gorng.Uint64_reads r = [gorng.mkRead gorng.fresh 0 8].
Proof.
  intros Hr. unfold gorng.Uint64_reads.
  rewrite (reachable_offset _ Hr). reflexivity.
Qed.

End Reachable.

Lemma reachable_takes_case_0_witness :
  let r := gorng.New None in
  gorng.offset r = 0 /\
  gorng.select (gorng.offset r) = gorng.case_0 /\
  (forall v r', gorng.Uint64 r = Some (v, r') ->
     gorng.offset r' = 0 /\
     exists d, sha1.Hash (gorng.rng r) = Some (d, gorng.rng r') /\
               gorng.digest r' = Some d /\
               v = BigEndian.be_value (take 8 (sha1.Bytes d))) /\
  (sha1.wf (gorng.rng r) -> exists v r', gorng.Uint64 r = Some (v, r')).
Proof.
  apply (reachable_takes_case_0 (fun _ => sha1.New)). apply reach_New.
Defined.



Lemma Uint64_on_New d0 :
  gorng.Uint64 (gorng.mkShaRing sha1.New 0 d0) =
  Some (empty_word,
        gorng.mkShaRing sha1.New 0
          (Some (sha1.mkDigest
             [xda; x39; xa3; xee; x5e; x6b; x4b; x0d; x32; x55;
              xbf; xef; x95; x60; x18; x90; xaf; xd8; x07; x09]))).
Proof. vm_compute. reflexivity. Qed.

(** With the engine in its initial state every draw is the same word. *)
Lemma draws_on_New n : forall d0,
  exists r', gorng.draws n (gorng.mkShaRing sha1.New 0 d0) =
             Some (replicate n empty_word, r').
Proof.
  induction n as [|n IH]; intros d0; cbn [gorng.draws replicate].
  - eauto.
  - rewrite Uint64_on_New. cbn [mbind option_bind].
    destruct (IH (Some (sha1.mkDigest
             [xda; x39; xa3; xee; x5e; x6b; x4b; x0d; x32; x55;
              xbf; xef; x95; x60; x18; x90; xaf; xd8; x07; x09]))) as [r' ->].
    cbn [mbind option_bind]. eauto.
Qed.

(** [Hash] resets the engine and nothing is written back, so after the first
    draw every draw repeats [empty_word]. *)
Lemma draws_repeat n r :
  gorng.offset r = 0 -> sha1.wf (gorng.rng r) ->
  exists d r',
    sha1.Hash (gorng.rng r) = Some (d, sha1.New) /\
    gorng.draws (S n) r =
    Some (BigEndian.be_value (take 8 (sha1.Bytes d)) :: replicate n empty_word, r').
Proof.
  intros H0 Hwf. destruct (Uint64_Some r H0 Hwf) as (d & Hd & HU).
  destruct (draws_on_New n (Some d)) as [r' Hr'].
  exists d, r'. split; [exact Hd |].
  cbn [gorng.draws]. rewrite HU. cbn [mbind option_bind]. rewrite Hr'.
  reflexivity.
Qed.

(** ** Seeding *)

Lemma length_PutUint64_at b off v b' :
  BigEndian.PutUint64_at b off v = Some b' -> length b' = length b.
Proof.
  unfold BigEndian.PutUint64_at.
  destruct (Nat.leb_spec (off + 8) (length b)); [| discriminate].
  intros [= <-]. rewrite length_app, length_take.
  cbn [length app BigEndian.bytes_of_Uint64]. rewrite length_drop. lia.
Qed.

(** The loop over [more] panics when the buffer is too short for its last
    word. *)
Lemma put_more_None more : forall i b,
  more <> [] -> (length b < 8 * (i + length more) + 8)%nat ->
  gorng.put_more b i more = None.
Proof.
  induction more as [|m more IH]; intros i b Hne Hlen; [congruence |].
  cbn [gorng.put_more].
  destruct (BigEndian.PutUint64_at b (8 * (i + 1)) m) as [b'|] eqn:E;
    [| reflexivity].
  cbn [mbind option_bind]. pose proof (length_PutUint64_at _ _ _ _ E) as Hb'.
  destruct more as [|m' more].
  - exfalso. unfold BigEndian.PutUint64_at in E.
    destruct (Nat.leb_spec (8 * (i + 1) + 8) (length b)); [| discriminate].
    cbn [length] in Hlen. lia.
  - apply IH; [discriminate |]. rewrite Hb'. cbn [length] in *. lia.
Qed.

(** [NewSourceSeeded] sizes its buffer at [2 + 2 * len(more)] bytes, too few
    for the [8 + 8 * len(more)] it writes: it panics on every input. *)
Lemma NewSourceSeeded_None seed more : gorng.NewSourceSeeded seed more = None.
Proof.
  unfold gorng.NewSourceSeeded.
  destruct (BigEndian.PutUint64_at _ 0 seed) as [b|] eqn:E; [| reflexivity].
  cbn [mbind option_bind]. pose proof (length_PutUint64_at _ _ _ _ E) as Hb.
  rewrite length_replicate in Hb.
  unfold BigEndian.PutUint64_at in E. rewrite length_replicate in E.
  destruct (Nat.leb_spec (0 + 8) (2 + 2 * length more)); [| discriminate].
  rewrite put_more_None; [reflexivity | |].
  - destruct more; [cbn [length] in *; lia | discriminate].
  - rewrite Hb. lia.
Qed.

(** C4 (fails on the code).  Constructing the generator from the seed word
    [0x0000000000000001], or from any seed words, panics: the 2-byte buffer is
    too short for [PutUint64], so no first draw takes place. *)
Theorem seeded_fixture_panics :
  gorng.NewSourceSeeded 0x0000000000000001 [] = None /\
  forall seed more, gorng.NewSourceSeeded seed more = None.
Proof. split; [reflexivity | exact NewSourceSeeded_None]. Qed.

(** The fixture as intended, with the eight seed bytes written to the engine
    before it is handed to [New]: the first draw is the big-endian value of
    the first eight bytes of the seed bytes' digest. *)
Lemma first_draw_of_written_seed (seed : Z) h n :
  sha1.Write sha1.New (BigEndian.bytes_of_Uint64 seed) = Some (h, n) ->
  sha1.wf h ->
  exists d r',
    sha1.HashBytes (BigEndian.bytes_of_Uint64 seed) = Some d /\
    gorng.Uint64 (gorng.New (Some h)) =
      Some (BigEndian.be_value (take 8 (sha1.Bytes d)), r').
Proof.
  intros HW Hwf.
  destruct (Uint64_Some (gorng.New (Some h)) eq_refl Hwf) as (d & Hd & HU).
  exists d. eexists. split; [| exact HU].
  unfold sha1.HashBytes. rewrite HW. cbn [mbind option_bind].
  change (gorng.rng (gorng.New (Some h))) with h in Hd.
  rewrite Hd. reflexivity.
Qed.

(** C6 (fails on the code).  No sequence of draws comes out of a generator
    constructed from seed words: for every seed and every number of draws the
    run panics in the constructor. *)
Theorem seeded_draws_panic (seed : Z) (more : list Z) (n : nat) :
  seeded_draws seed more n = None.
Proof. unfold seeded_draws. rewrite NewSourceSeeded_None. reflexivity. Qed.

(** Two generators at offset 0 over equal engine states draw the same values,
    whatever digest each has stored. *)
Lemma draws_deterministic n r1 r2 :
  gorng.rng r1 = gorng.rng r2 -> gorng.offset r1 = 0 -> gorng.offset r2 = 0 ->
  option_map fst (gorng.draws n r1) = option_map fst (gorng.draws n r2).
Proof.
  intros Hrng H1 H2. destruct n as [|n]; [reflexivity |].
  cbn [gorng.draws].
  rewrite (Uint64_case_0 r1 H1), (Uint64_case_0 r2 H2), Hrng.
  reflexivity.
Qed.

(** ** Which digest bytes a draw hands out *)

Lemma Z_of_byte_range x : 0 <= Z_of_byte x < 256.
Proof.
  unfold Z_of_byte. pose proof (Byte.to_N_bounded x). lia.
Qed.

Lemma be_fold_shift b : forall acc,
  fold_left (fun acc x => acc * 256 + Z_of_byte x) b acc =
  acc * 256 ^ Z.of_nat (length b) + BigEndian.be_value b.
Proof.
  unfold BigEndian.be_value.
  induction b as [|x b IH]; intros acc; cbn [fold_left length].
  - change (Z.of_nat 0) with 0. lia.
  - rewrite IH, (IH (0 * 256 + Z_of_byte x)).
    rewrite Nat2Z.inj_succ, Z.pow_succ_r by lia. lia.
Qed.

Lemma be_value_app a b :
  BigEndian.be_value (a ++ b) =
  BigEndian.be_value a * 256 ^ Z.of_nat (length b) + BigEndian.be_value b.
Proof.
  unfold BigEndian.be_value at 1. rewrite fold_left_app.
  fold (BigEndian.be_value a). apply be_fold_shift.
Qed.

Lemma be_value_range b :
  0 <= BigEndian.be_value b < 256 ^ Z.of_nat (length b).
Proof.
  induction b as [|x b IH] using rev_ind.
  - cbn. lia.
  - rewrite be_value_app, length_app. cbn [length].
    change (BigEndian.be_value [x]) with (0 * 256 + Z_of_byte x).
    pose proof (Z_of_byte_range x).
    replace (Z.of_nat (length b + 1)) with (Z.succ (Z.of_nat (length b))) by lia.
    rewrite Z.pow_succ_r by lia. change (256 ^ Z.of_nat 1) with 256. nia.
Qed.

Lemma Uint32_Some b v :
  BigEndian.Uint32 b = Some v ->
  v = BigEndian.be_value (take 4 b) /\ length (take 4 b) = 4%nat /\ 0 <= v < 2 ^ 32.
Proof.
  unfold BigEndian.Uint32. destruct (Nat.leb_spec 4 (length b)); [| discriminate].
  intros [= <-]. assert (length (take 4 b) = 4%nat) as Hl by (rewrite length_take; lia).
  split; [reflexivity |]. split; [exact Hl |].
  pose proof (be_value_range (take 4 b)) as Hr. rewrite Hl in Hr. exact Hr.
Qed.

Lemma Uint64_Some_value b v :
  BigEndian.Uint64 b = Some v -> v = BigEndian.be_value (take 8 b).
Proof.
  unfold BigEndian.Uint64. destruct (8 <=? length b)%nat; [| discriminate].
  intros [= <-]. reflexivity.
Qed.

(** The value a call returns is the big-endian value of the digest bytes
    listed by [Uint64_reads], in order. *)
Lemma Uint64_reads_sound r v r' :
  gorng.Uint64 r = Some (v, r') ->
  v = BigEndian.be_value
        (concat (map (read_bytes (gorng.digest r) (gorng.digest r'))
                     (gorng.Uint64_reads r))).
Proof.
  unfold gorng.Uint64, gorng.Uint64_reads, gorng.digest_Bytes.
  destruct (gorng.select (gorng.offset r)).
  - destruct (sha1.Hash (gorng.rng r)) as [[d h]|]; [| discriminate].
    cbn [mbind option_bind].
    destruct (BigEndian.Uint64 (sha1.Bytes d)) as [w|] eqn:E; [| discriminate].
    cbn [mbind option_bind]. intros [= <- <-].
    cbn [map concat read_bytes gorng.digest gorng.from gorng.lo gorng.hi].
    rewrite app_nil_r. exact (Uint64_Some_value _ _ E).
  - destruct (gorng.digest r) as [d|]; [| discriminate].
    cbn [mbind option_bind].
    destruct (BigEndian.Uint64 (sha1.Bytes d)) as [w|] eqn:E; [| discriminate].
    cbn [mbind option_bind]. intros [= <- <-].
    cbn [map concat read_bytes gorng.digest gorng.from gorng.lo gorng.hi].
    rewrite app_nil_r. exact (Uint64_Some_value _ _ E).
  - destruct (gorng.digest r) as [d|]; [| discriminate].
    cbn [mbind option_bind].
    destruct (BigEndian.Uint64 (sha1.Bytes d)) as [w|] eqn:E; [| discriminate].
    cbn [mbind option_bind]. intros [= <- <-].
    cbn [map concat read_bytes gorng.digest gorng.from gorng.lo gorng.hi].
    rewrite app_nil_r. exact (Uint64_Some_value _ _ E).
  - destruct (gorng.digest r) as [d0|]; [| discriminate].
    cbn [mbind option_bind].
    destruct (slice (sha1.Bytes d0) 16 _) as [tail|] eqn:Es; [| discriminate].
    cbn [mbind option_bind].
    destruct (BigEndian.Uint32 tail) as [hi|] eqn:Eh; [| discriminate].
    cbn [mbind option_bind].
    destruct (sha1.Hash (gorng.rng r)) as [[d h]|]; [| discriminate].
    cbn [mbind option_bind].
    destruct (BigEndian.Uint32 (sha1.Bytes d)) as [lo|] eqn:El; [| discriminate].
    cbn [mbind option_bind]. intros [= <- <-].
    cbn [map concat read_bytes gorng.digest gorng.from gorng.lo gorng.hi].
    rewrite app_nil_r.
    destruct (Uint32_Some _ _ Eh) as (-> & _ & Hhi).
    destruct (Uint32_Some _ _ El) as (-> & Hl4 & Hlo).
    rewrite be_value_app. change (4 - 0)%nat with 4%nat. rewrite drop_0, Hl4.
    change (20 - 16)%nat with 4%nat.
    assert (tail = drop 16 (sha1.Bytes d0)) as ->.
    { unfold slice in Es. destruct (_ && _); [| discriminate].
      injection Es as <-. rewrite Z2Nat.inj_sub, Nat2Z.id by lia.
      change (Z.to_nat 16) with 16%nat.
      apply take_ge. rewrite length_drop. lia. }
    unfold u64. rewrite Z.shiftl_mul_pow2 by lia.
    change (256 ^ Z.of_nat 4) with (2 ^ 32) in *.
    rewrite (Z.mod_small (_ * 2 ^ 32)) by lia.
    rewrite Z.mod_small by lia. reflexivity.
  - intros [= <- <-]. reflexivity.
Qed.

(** C5 (fails on the code).  Three draws from a fresh generator: each call
    reads bytes 0 to 8 of a digest it has just computed and no call reads the
    stored digest, so bytes 8 to 20 of every digest are never handed out; and
    the three words are equal. *)
Theorem digest_tail_never_emitted :
  option_map fst (gorng.draws 3 (gorng.New None)) =
    Some [0xDA39A3EE5E6B4B0D; 0xDA39A3EE5E6B4B0D; 0xDA39A3EE5E6B4B0D] /\
  draws_reads 3 (gorng.New None) =
    Some [[gorng.mkRead gorng.fresh 0 8]; [gorng.mkRead gorng.fresh 0 8];
          [gorng.mkRead gorng.fresh 0 8]].
Proof. split; vm_compute; reflexivity. Qed.

(** ** Byte extraction *)

Lemma store_byte_empty i v : safe.store_byte [] i v = None.
Proof.
  unfold safe.store_byte.
  destruct (0 <=? i) eqn:E1; [| reflexivity].
  destruct (i <? _) eqn:E2; [| reflexivity].
  apply Z.leb_le in E1. apply Z.ltb_lt in E2. cbn in E2. lia.
Qed.

Lemma Bytes_inner_empty k i next bits :
  safe.Bytes_inner (S k) i 0 [] next bits = None.
Proof.
  cbn [safe.Bytes_inner]. rewrite !store_byte_empty.
  destruct (bits <? 8); reflexivity.
Qed.

Lemma Bytes_positive {S} `{safe.RandSource S} (source : S) (n : Z) :
  0 < n -> safe.Bytes source n = safe.Panics.
Proof.
  intros Hn. unfold safe.Bytes.
  destruct (Z.eqb_spec n 0); [lia |].
  change (safe.make 0 _) with (@nil byte).
  cbn [safe.Bytes_outer].
  destruct (Z.ltb_spec 0 n); [| lia].
  destruct (safe.Uint64 source) as [[next source']|]; [| reflexivity].
  rewrite (Bytes_inner_empty 7 0 next n). reflexivity.
Qed.

(** The iteration bound in [Bytes] is never what ends a call. *)
Lemma Bytes_finishes {S} `{safe.RandSource S} (source : S) (n : Z) :
  safe.Bytes source n <> safe.Unfinished.
Proof.
  destruct (Z.lt_trichotomy n 0) as [Hn|[->|Hn]].
  - unfold safe.Bytes. destruct (Z.eqb_spec n 0); [lia |].
    simpl. destruct (Z.ltb_spec 0 n); [lia | discriminate].
  - discriminate.
  - rewrite Bytes_positive by exact Hn. discriminate.
Qed.

(** C7 (fails on the code).  For every bit count from 1 to 255 and every word
    source, [Bytes] panics: the output slice is made with length 0 and the
    first store indexes it. *)
Theorem Bytes_panics {S} `{safe.RandSource S} (source : S) (n : Z) :
  1 <= n <= 255 -> safe.Bytes source n = safe.Panics.
Proof. intros Hn. apply Bytes_positive. lia. Qed.

Lemma Bytes_panics_witness : safe.Bytes (gorng.New None) 8 = safe.Panics.
Proof. apply Bytes_panics. lia. Defined.

(** ** Channels *)

(** C9 (fails on the code).  [safe.New] makes a channel and returns; [start]
    and [Close] have empty bodies: no goroutine is started, nothing is sent on
    the channel, and closing changes nothing. *)
Theorem New_starts_no_loop {S} (src : S) (bits : Z) (rt : safe.runtime) :
  let '(rng, rt') := safe.New src bits rt in
  safe.goroutines rt' = safe.goroutines rt /\
  safe.chans rt' !! safe.Channel rng = Some (safe.mkChan [] false) /\
  safe.Close rng rt' = rt'.
Proof.
  unfold safe.New, safe.make_chan, safe.start, safe.Close, safe.Channel. simpl.
  split; [reflexivity |]. split; [| reflexivity].
  rewrite lookup_app_r by lia. rewrite Nat.sub_diag. reflexivity.
Qed.

(** ** Writing in chunks *)

(** C2 (fails on the code).  The 65-byte message 0, 1, ..., 64 written as one
    byte and then the other 64: the second [Write] copies 63 bytes, mixes the
    block and then skips to index 64 of its argument, so the last byte is
    never copied, while the call reports 64 bytes written.  The engine is left
    as after writing the first 64 bytes only, and the digest is theirs, not
    that of the message written in one call. *)
Theorem chunked_write_drops_bytes :
  hash_chunks [take 1 msg65; drop 1 msg65] <> sha1.HashBytes msg65 /\
  hash_chunks [take 1 msg65; drop 1 msg65] = sha1.HashBytes (take 64 msg65) /\
  write_chunks sha1.New [take 1 msg65; drop 1 msg65] =
    option_map fst (sha1.Write sha1.New (take 64 msg65)) /\
  (s ← write_chunks sha1.New [take 1 msg65];
   option_map snd (sha1.Write s (drop 1 msg65))) = Some 64 /\
  digest_hex (hash_chunks [take 1 msg65; drop 1 msg65]) =
    Some "C6138D514FFA2135BFCE0ED0B8FAC65669917EC7"%string /\
  digest_hex (sha1.HashBytes msg65) =
    Some "69BD728AD6E13CD76FF19751FDE427B00E395746"%string.
Proof.
  split; [vm_compute; discriminate |].
  split; [vm_compute; reflexivity |].
  split; [vm_compute; reflexivity |].
  split; [vm_compute; reflexivity |].
  split; vm_compute; reflexivity.
Qed.

(** A split at a block boundary is written whole. *)
Example aligned_split_agrees :
  hash_chunks [take 64 msg65; drop 64 msg65] = sha1.HashBytes msg65.
Proof. vm_compute. reflexivity. Qed.

(** Of the 66 ways to write the 65-byte message in two calls, only the three
    that put the cut at 0, at the block boundary or at the end agree with one
    call; every cut inside the first block loses bytes. *)
Example two_way_splits_of_msg65 : agreeing_splits msg65 = [0; 64; 65]%nat.
Proof. vm_compute. reflexivity. Qed.

(** ** Bytes and big-endian values *)
Lemma Z_of_byte_of_Z x : Z_of_byte (byte_of_Z x) = x mod 256.
Proof.
  unfold Z_of_byte, byte_of_Z, u8. change (2 ^ 8) with 256.
  pose proof (Z.mod_pos_bound x 256 ltac:(lia)) as Hx.
  destruct (Byte.of_N (Z.to_N (x mod 256))) as [b|] eqn:E.
  - apply Byte.to_of_N in E. rewrite E. lia.
  - apply Byte.of_N_None_iff in E. lia.
Qed.

Lemma be_value_nil : BigEndian.be_value [] = 0.
Proof. reflexivity. Qed.

Lemma be_value_snoc s b :
  BigEndian.be_value (s ++ [b]) = BigEndian.be_value s * 256 + Z_of_byte b.
Proof.
  rewrite be_value_app. cbn [length]. change (256 ^ Z.of_nat 1) with 256.
  change (BigEndian.be_value [b]) with (0 * 256 + Z_of_byte b). lia.
Qed.

Lemma word_at_beyond s j : (length s <= 4 * j)%nat -> word_at s j = 0.
Proof.
  intros H. unfold word_at. rewrite drop_ge by exact H. reflexivity.
Qed.

Lemma word_at_app_full s t j :
  (4 * j + 4 <= length s)%nat -> word_at (s ++ t) j = word_at s j.
Proof.
  intros H. unfold word_at. rewrite drop_app_le by lia.
  rewrite take_app_le by (rewrite length_drop; lia). reflexivity.
Qed.

Lemma length_pack s : length (pack s) = 16%nat.
Proof. unfold pack. rewrite length_map, length_seq. reflexivity. Qed.

Lemma get_pack s j : (j < 16)%nat -> get (pack s) j = word_at s j.
Proof.
  intros Hj. unfold get, pack. rewrite list_lookup_fmap.
  rewrite lookup_seq_lt by exact Hj. reflexivity.
Qed.

Lemma pack_nil : pack [] = replicate 16 0.
Proof. reflexivity. Qed.

(** An array is the packing of [s] when its words are. *)
Lemma pack_intro blk s :
  length blk = 16%nat ->
  (forall j, (j < 16)%nat -> get blk j = word_at s j) -> blk = pack s.
Proof.
  intros Hlen Hget. apply array_ext.
  - rewrite length_pack. exact Hlen.
  - rewrite Hlen. intros j Hj. rewrite get_pack by exact Hj. apply Hget, Hj.
Qed.

(** ** [copyBytes] *)

Lemma land_3 x : Z.land x sha1.BLOCKITEM_MASK = x mod 4.
Proof. change sha1.BLOCKITEM_MASK with (Z.ones 2). apply Z.land_ones. lia. Qed.

Lemma land_63 x : Z.land x 63 = x mod 64.
Proof. change 63 with (Z.ones 6). apply Z.land_ones. lia. Qed.

Lemma u64_mod_4 x : u64 x mod 4 = x mod 4.
Proof.
  unfold u64. apply Z.mod_mod_divide. exists (2 ^ 62). reflexivity.
Qed.

Lemma u64_mod_64 x : u64 x mod 64 = x mod 64.
Proof.
  unfold u64. apply Z.mod_mod_divide. exists (2 ^ 58). reflexivity.
Qed.

Lemma u64_add_l x y : u64 (u64 x + y) = u64 (x + y).
Proof. unfold u64. apply Zplus_mod_idemp_l. Qed.

Lemma u64_small x : 0 <= x < 2 ^ 64 -> u64 x = x.
Proof. apply Z.mod_small. Qed.

Lemma be_value_lt (s : list byte) k :
  (length s <= k)%nat -> 0 <= BigEndian.be_value s < 256 ^ Z.of_nat k.
Proof.
  intros H. pose proof (be_value_range s) as Hr.
  assert (256 ^ Z.of_nat (length s) <= 256 ^ Z.of_nat k).
  { apply Z.pow_le_mono_r; lia. }
  lia.
Qed.

(** One more byte shifted into the word being assembled. *)
Lemma shift_in_byte (t : list byte) b :
  (length t <= 3)%nat ->
  add32 (shl32 (BigEndian.be_value t) 8) (Z_of_byte b) =
  BigEndian.be_value (t ++ [b]).
Proof.
  intros Ht. rewrite be_value_snoc.
  pose proof (be_value_lt t 3 Ht) as Hr. change (256 ^ Z.of_nat 3) with (2 ^ 24) in Hr.
  pose proof (Z_of_byte_range b).
  unfold add32, shl32, u32. rewrite Z.shiftl_mul_pow2 by lia.
  change (2 ^ 8) with 256.
  rewrite (Z.mod_small (_ * 256)) by lia.
  apply Z.mod_small. lia.
Qed.

(** The loop of [copyBytes] on a block that holds the bytes [s]: whole words
    of [s] are in the array, the unfinished word is in [value], the rest of
    the array is zero; and so it is for [s ++ m] afterwards. *)
Lemma copyBytes_loop_pack m : forall s blk len,
  (length s + length m <= 64)%nat ->
  length blk = 16%nat ->
  0 <= len < 2 ^ 64 ->
  len mod 4 = Z.of_nat (length s) mod 4 ->
  (forall j, (4 * j + 4 <= length s)%nat -> get blk j = word_at s j) ->
  (forall j, (length s <= 4 * j)%nat -> get blk j = 0) ->
  exists blk',
    sha1.copyBytes_loop m blk len (Z.of_nat (length s / 4))
      (BigEndian.be_value (drop (4 * (length s / 4)) s)) =
    Some (blk', u64 (len + Z.of_nat (length m)),
          Z.of_nat (length (s ++ m) / 4),
          BigEndian.be_value (drop (4 * (length (s ++ m) / 4)) (s ++ m))) /\
    length blk' = 16%nat /\
    (forall j, (4 * j + 4 <= length (s ++ m))%nat ->
               get blk' j = word_at (s ++ m) j) /\
    (forall j, (length (s ++ m) <= 4 * j)%nat -> get blk' j = 0).
Proof.
  induction m as [|b m IH]; intros s blk len Hfit Hblk Hlen Hmod Hfull Hzero.
  - cbn [sha1.copyBytes_loop length]. rewrite app_nil_r.
    exists blk. rewrite Z.add_0_r, u64_small by exact Hlen. auto.
  - cbn [length] in Hfit. cbn [sha1.copyBytes_loop].
    assert (length (drop (4 * (length s / 4)) s) <= 3)%nat as Hpart.
    { rewrite length_drop. pose proof (Nat.div_mod_eq (length s) 4).
      pose proof (Nat.mod_upper_bound (length s) 4). lia. }
    rewrite shift_in_byte by exact Hpart.
    rewrite land_3, u64_mod_4.
    assert ((len + 1) mod 4 = Z.of_nat (length (s ++ [b])) mod 4) as Hmod1.
    { rewrite length_app. cbn [length].
      rewrite Nat2Z.inj_add. change (Z.of_nat 1) with 1.
      rewrite <- Z.add_mod_idemp_l, Hmod, Z.add_mod_idemp_l by lia. reflexivity. }
    assert (0 <= u64 (len + 1) < 2 ^ 64) as Hlen1.
    { unfold u64. apply Z.mod_pos_bound. lia. }
    assert (length (s ++ [b]) = S (length s)) as Hl1.
    { rewrite length_app. cbn [length]. lia. }
    assert (u64 (u64 (len + 1) + Z.of_nat (length m)) =
            u64 (len + Z.of_nat (length (b :: m)))) as Hu.
    { rewrite u64_add_l. cbn [length]. f_equal. lia. }
    pose proof (Nat.div_mod_eq (length s) 4) as Hdm.
    pose proof (Nat.mod_upper_bound (length s) 4 ltac:(lia)) as Hub.
    pose proof (Nat.div_mod_eq (S (length s)) 4) as Hdm1.
    pose proof (Nat.mod_upper_bound (S (length s)) 4 ltac:(lia)) as Hub1.
    destruct (Z.eqb_spec ((len + 1) mod 4) 0) as [Hz|Hnz].
    + (* the word is complete *)
      assert (S (length s) mod 4 = 0)%nat as Hm0.
      { rewrite Hmod1, Hl1 in Hz.
        apply Nat2Z.inj. rewrite Nat2Z.inj_mod. exact Hz. }
      assert (S (length s) / 4 = S (length s / 4))%nat as Hdiv by lia.
      unfold store. rewrite Hblk.
      destruct (Z.leb_spec 0 (Z.of_nat (length s / 4))); [| lia].
      destruct (Z.ltb_spec (Z.of_nat (length s / 4)) (Z.of_nat 16)); [| lia].
      cbn [andb mbind option_bind]. rewrite Nat2Z.id.
      assert (u32 (Z.of_nat (length s / 4) + 1) = Z.of_nat (length (s ++ [b]) / 4)) as ->.
      { rewrite Hl1, Hdiv. unfold u32. rewrite Z.mod_small by lia. lia. }
      assert (BigEndian.be_value
                (drop (4 * (length (s ++ [b]) / 4)) (s ++ [b])) = 0) as Hv0.
      { rewrite drop_ge by (rewrite Hl1; lia). reflexivity. }
      destruct (IH (s ++ [b])
                   (<[(length s / 4)%nat := BigEndian.be_value
                        (drop (4 * (length s / 4)) s ++ [b])]> blk)
                   (u64 (len + 1))) as (blk' & E & Hb' & Hf' & Hz').
      * rewrite Hl1. lia.
      * rewrite length_insert. exact Hblk.
      * exact Hlen1.
      * rewrite u64_mod_4. exact Hmod1.
      * intros j Hj. rewrite Hl1 in Hj.
        destruct (Nat.eq_dec j (length s / 4)%nat) as [->|Hne].
        -- unfold get. rewrite list_lookup_insert_eq by lia. cbn [default].
           unfold word_at. rewrite drop_app_le by lia.
           rewrite take_ge; [reflexivity |].
           rewrite length_app, length_drop. cbn [length]. lia.
        -- unfold get. rewrite list_lookup_insert_ne by lia.
           fold (get blk j). rewrite Hfull by lia.
           symmetry. apply word_at_app_full. lia.
      * intros j Hj. rewrite Hl1 in Hj.
        unfold get. rewrite list_lookup_insert_ne by lia.
        fold (get blk j). apply Hzero. lia.
      * exists blk'. rewrite Hv0 in E.
        rewrite <- app_assoc in E, Hf', Hz'. cbn [app] in E, Hf', Hz'.
        rewrite E, Hu. auto.
    + (* the word is still open *)
      assert (S (length s) mod 4 <> 0)%nat as Hm0.
      { intros Hc. apply Hnz. rewrite Hmod1, Hl1.
        apply (f_equal Z.of_nat) in Hc. rewrite Nat2Z.inj_mod in Hc. exact Hc. }
      assert (S (length s) / 4 = length s / 4)%nat as Hdiv by lia.
      assert (BigEndian.be_value (drop (4 * (length s / 4)) s ++ [b]) =
              BigEndian.be_value
                (drop (4 * (length (s ++ [b]) / 4)) (s ++ [b]))) as ->.
      { rewrite Hl1, Hdiv, drop_app_le by lia. reflexivity. }
      replace (Z.of_nat (length s / 4)) with (Z.of_nat (length (s ++ [b]) / 4))
        by (rewrite Hl1, Hdiv; reflexivity).
      destruct (IH (s ++ [b]) blk (u64 (len + 1))) as (blk' & E & Hb' & Hf' & Hz').
      * rewrite Hl1. lia.
      * exact Hblk.
      * exact Hlen1.
      * rewrite u64_mod_4. exact Hmod1.
      * intros j Hj. rewrite Hl1 in Hj. rewrite Hfull by lia.
        symmetry. apply word_at_app_full. lia.
      * intros j Hj. rewrite Hl1 in Hj. apply Hzero. lia.
      * exists blk'. rewrite <- app_assoc in E, Hf', Hz'. cbn [app] in E, Hf', Hz'.
        rewrite E, Hu. auto.
Qed.

Lemma get_beyond (a : list Z) j : (length a <= j)%nat -> get a j = 0.
Proof. intros H. unfold get. rewrite lookup_ge_None_2 by exact H. reflexivity. Qed.

Lemma word_at_partial s :
  word_at s (length s / 4) = BigEndian.be_value (drop (4 * (length s / 4)) s).
Proof.
  unfold word_at. rewrite take_ge; [reflexivity |].
  rewrite length_drop. pose proof (Nat.div_mod_eq (length s) 4).
  pose proof (Nat.mod_upper_bound (length s) 4). lia.
Qed.

(** [copyBytes] on an engine that holds the bytes [p], with a message that
    fits in the block: the engine then holds [p ++ m]. *)
Lemma copyBytes_engine cv p L m :
  (length p + length m <= 64)%nat -> (length p < 64)%nat ->
  0 <= L < 2 ^ 64 -> L mod 64 = Z.of_nat (length p) ->
  sha1.copyBytes (engine cv p L) m =
  Some (engine cv (p ++ m) (u64 (L + Z.of_nat (length m)))).
Proof.
  intros Hfit Hp HL Hoff. unfold sha1.copyBytes, engine.
  cbn [sha1.block sha1.length sha1.chainValue].
  pose proof (Nat.div_mod_eq (length p) 4) as Hdm.
  pose proof (Nat.mod_upper_bound (length p) 4 ltac:(lia)) as Hub.
  assert (u32 (Z.of_nat (length m)) = Z.of_nat (length m)) as ->.
  { unfold u32. apply Z.mod_small. lia. }
  rewrite Nat2Z.id, take_ge by lia.
  assert (Z.shiftr (u32 (Z.land L 63)) 2 = Z.of_nat (length p / 4)) as ->.
  { rewrite land_63, Hoff. unfold u32. rewrite Z.mod_small by lia.
    rewrite Z.shiftr_div_pow2 by lia. change (2 ^ 2) with 4.
    rewrite Nat2Z.inj_div. reflexivity. }
  assert (load (pack p) (Z.of_nat (length p / 4)) =
          Some (BigEndian.be_value (drop (4 * (length p / 4)) p))) as ->.
  { unfold load. destruct (Z.leb_spec 0 (Z.of_nat (length p / 4))); [| lia].
    rewrite Nat2Z.id. rewrite <- word_at_partial.
    unfold pack. rewrite list_lookup_fmap, lookup_seq_lt by lia. reflexivity. }
  cbn [mbind option_bind].
  destruct (copyBytes_loop_pack m p (pack p) L) as (blk' & E & Hb' & Hf' & Hz');
    try assumption.
  - apply length_pack.
  - rewrite <- Hoff. symmetry. apply Z.mod_mod_divide. exists 16. reflexivity.
  - intros j Hj. apply get_pack. lia.
  - intros j Hj. destruct (Nat.lt_ge_cases j 16).
    + rewrite get_pack by assumption. apply word_at_beyond. exact Hj.
    + apply get_beyond. rewrite length_pack. assumption.
  - rewrite E. cbn [mbind option_bind].
    rewrite land_3, u64_mod_4.
    assert ((L + Z.of_nat (length m)) mod 4 = Z.of_nat (length (p ++ m)) mod 4) as Hmod.
    { rewrite length_app, Nat2Z.inj_add.
      rewrite <- Z.add_mod_idemp_l by lia.
      rewrite <- (Z.mod_mod_divide L 64 4) by (exists 16; reflexivity).
      rewrite Hoff, Z.add_mod_idemp_l by lia. reflexivity. }
    rewrite Hmod.
    assert (length (p ++ m) <= 64)%nat as Hl by (rewrite length_app; lia).
    pose proof (Nat.div_mod_eq (length (p ++ m)) 4) as Hdm'.
    pose proof (Nat.mod_upper_bound (length (p ++ m)) 4 ltac:(lia)) as Hub'.
    change 4 with (Z.of_nat 4). rewrite <- Nat2Z.inj_mod.
    destruct (Z.eqb_spec (Z.of_nat (length (p ++ m) mod 4)) 0) as [Hz|Hnz];
      cbn [negb mbind option_bind].
    + f_equal. f_equal. apply pack_intro; [exact Hb' |].
      intros j Hj. destruct (Nat.lt_ge_cases (4 * j) (length (p ++ m))).
      * apply Hf'. lia.
      * rewrite Hz' by lia. symmetry. apply word_at_beyond. lia.
    + unfold store. rewrite Hb'.
      destruct (Z.leb_spec 0 (Z.of_nat (length (p ++ m) / 4))); [| lia].
      destruct (Z.ltb_spec (Z.of_nat (length (p ++ m) / 4)) (Z.of_nat 16)); [| lia].
      cbn [andb mbind option_bind]. rewrite Nat2Z.id.
      f_equal. f_equal. apply pack_intro; [rewrite length_insert; exact Hb' |].
      intros j Hj. destruct (Nat.eq_dec j (length (p ++ m) / 4)%nat) as [->|Hne].
      * unfold get. rewrite list_lookup_insert_eq by lia. cbn [default].
        symmetry. apply word_at_partial.
      * unfold get. rewrite list_lookup_insert_ne by lia. fold (get blk' j).
        destruct (Nat.lt_ge_cases (4 * j) (length (p ++ m))).
        -- apply Hf'. lia.
        -- rewrite Hz' by lia. symmetry. apply word_at_beyond. lia.
Qed.

(** ** [mixBits] and [Write] *)

Lemma length_fold_set {A} (f : list Z -> A -> list Z) (l : list A) :
  (forall w i, length (f w i) = length w) ->
  forall w, length (fold_left f l w) = length w.
Proof.
  intros Hf. induction l as [|i l IH]; intros w; cbn [fold_left]; [reflexivity |].
  rewrite IH. apply Hf.
Qed.

Lemma length_schedule blk scratch :
  length (sha1.schedule blk scratch) = length scratch.
Proof.
  unfold sha1.schedule.
  rewrite !length_fold_set; auto; intros w i; apply length_insert.
Qed.

(** [mixBits] on an engine whose block holds sixteen words: the chain value
    becomes [compress] of it, the block and the scratch array are cleared,
    the count stays. *)
Lemma mixBits_compress blk L cv :
  length blk = 16%nat ->
  sha1.mixBits (sha1.mkHasher blk L cv) (replicate sha1.SCRATCH_INTS 0) =
  (engine (compress cv blk) [] L, replicate sha1.SCRATCH_INTS 0).
Proof.
  intros Hb. unfold compress, sha1.mixBits, engine.
  cbn [sha1.block sha1.length sha1.chainValue].
  destruct (sha1.rounds _ _) as [[[[a b] c] d] e].
  cbn [fst sha1.chainValue]. unfold clear.
  rewrite Hb, length_schedule, length_replicate. reflexivity.
Qed.

Lemma absorb_short cv s : (length s < 64)%nat -> absorb cv s = (cv, s).
Proof.
  intros H. unfold absorb. rewrite Nat.div_small by exact H. reflexivity.
Qed.

Lemma absorb_block cv s :
  (64 <= length s)%nat ->
  absorb cv s = absorb (compress cv (pack (take 64 s))) (drop 64 s).
Proof.
  intros H. unfold absorb. rewrite length_drop.
  replace (length s) with ((length s - 64) + 1 * 64)%nat at 1 by lia.
  rewrite Nat.div_add by lia. rewrite Nat.add_1_r. reflexivity.
Qed.

Lemma Write_loop_done fuel state scratch message index msglen :
  msglen <= index ->
  sha1.Write_loop fuel state scratch message index msglen = Some (state, scratch).
Proof.
  intros H. destruct fuel; cbn [sha1.Write_loop];
    destruct (Z.ltb_spec index msglen); try lia; reflexivity.
Qed.

Lemma slice_Some {A} (s : list A) lo hi :
  0 <= lo <= hi -> hi <= Z.of_nat (length s) ->
  slice s lo hi = Some (take (Z.to_nat (hi - lo)) (drop (Z.to_nat lo) s)).
Proof.
  intros H1 H2. unfold slice.
  destruct (Z.leb_spec 0 lo), (Z.leb_spec lo hi),
    (Z.leb_spec hi (Z.of_nat (length s))); try lia. reflexivity.
Qed.

(** The loop of [Write], entered with an empty block at [index]: it absorbs
    the rest of the message, block by block. *)
Lemma Write_loop_engine fuel : forall cv L message index,
  0 <= L < 2 ^ 64 -> L mod 64 = 0 -> 0 <= index ->
  (Z.to_nat (Z.of_nat (length message) - index) <= fuel)%nat ->
  let rest := drop (Z.to_nat index) message in
  sha1.Write_loop fuel (engine cv [] L) (replicate sha1.SCRATCH_INTS 0)
                  message index (Z.of_nat (length message)) =
  Some (engine (fst (absorb cv rest)) (snd (absorb cv rest))
               (u64 (L + Z.of_nat (length rest))),
        replicate sha1.SCRATCH_INTS 0).
Proof.
  induction fuel as [|fuel IH]; intros cv L message index HL Hal Hidx Hfuel rest.
  - assert (rest = []) as Hr by (apply drop_ge; lia).
    rewrite Write_loop_done by lia. rewrite Hr, absorb_short by (cbn; lia).
    cbn [fst snd length]. rewrite Z.add_0_r, u64_small by exact HL. reflexivity.
  - destruct (Z.lt_ge_cases index (Z.of_nat (length message))) as [Hlt|Hge].
    2:{ assert (rest = []) as Hr by (apply drop_ge; lia).
        rewrite Write_loop_done by lia. rewrite Hr, absorb_short by (cbn; lia).
        cbn [fst snd length]. rewrite Z.add_0_r, u64_small by exact HL.
        reflexivity. }
    assert (length rest = (length message - Z.to_nat index)%nat) as Hrest
      by apply length_drop.
    cbn [sha1.Write_loop].
    destruct (Z.ltb_spec index (Z.of_nat (length message))); [| lia].
    unfold sha1.BLOCK_BYTES.
    destruct (Z.gtb_spec (index + 64) (Z.of_nat (length message))) as [Hshort|Hfull].
    + (* the last, partial chunk *)
      rewrite slice_Some by lia. cbn [mbind option_bind].
      assert (take (Z.to_nat (Z.of_nat (length message) - index))
                   (drop (Z.to_nat index) message) = rest) as ->.
      { apply take_ge. fold rest. lia. }
      rewrite (copyBytes_engine cv [] L rest) by (cbn [length]; lia).
      cbn [mbind option_bind app].
      destruct (Z.eqb_spec (Z.of_nat (length message) - index) 64); [lia |].
      rewrite Write_loop_done by lia.
      rewrite absorb_short by lia. reflexivity.
    + (* a whole block *)
      rewrite slice_Some by lia. cbn [mbind option_bind].
      replace (index + 64 - index) with 64 by lia.
      change (Z.to_nat 64) with 64%nat. fold rest.
      assert (length (take 64 rest) = 64%nat) as Ht by (rewrite length_take; lia).
      rewrite (copyBytes_engine cv [] L (take 64 rest)) by (cbn [length]; lia).
      cbn [mbind option_bind app]. rewrite Ht.
      rewrite Z.eqb_refl. unfold engine at 1.
      rewrite mixBits_compress by apply length_pack.
      assert (0 <= u64 (L + Z.of_nat 64) < 2 ^ 64) as HL1
        by (unfold u64; apply Z.mod_pos_bound; lia).
      rewrite (IH _ (u64 (L + Z.of_nat 64))); try lia; try exact HL1.
      2:{ rewrite u64_mod_64. rewrite <- Z.add_mod_idemp_l, Hal by lia. reflexivity. }
      rewrite (absorb_block cv rest) by lia.
      replace (drop (Z.to_nat (index + 64)) message) with (drop 64 rest).
      2:{ unfold rest. rewrite drop_drop. f_equal. lia. }
      f_equal. f_equal. rewrite u64_add_l, length_drop.
      replace (L + Z.of_nat 64 + Z.of_nat (length rest - 64))
        with (L + Z.of_nat (length rest)) by (unfold rest in *; lia).
      reflexivity.
Qed.

(** [Write] on an engine that holds [p]: it does not panic and reports the
    whole message written.  If the message fits in the block, or the block is
    empty, the engine has absorbed [p ++ message]; a message that fills a
    partly filled block is absorbed without its bytes
    [64 - len(p) .. 64). *)
Lemma Write_engine cv p L m :
  (length p < 64)%nat -> 0 <= L < 2 ^ 64 -> L mod 64 = Z.of_nat (length p) ->
  let eff := if (length p + length m <? 64)%nat then m
             else take (64 - length p) m ++ drop 64 m in
  sha1.Write (engine cv p L) m =
  Some (engine (fst (absorb cv (p ++ eff))) (snd (absorb cv (p ++ eff)))
               (u64 (L + Z.of_nat (length eff))),
        Z.of_nat (length m)).
Proof.
  intros Hp HL Hoff eff. unfold sha1.Write.
  destruct (Z.eqb_spec (Z.of_nat (length m)) 0) as [H0|Hne].
  - assert (m = []) as -> by (destruct m; [reflexivity | discriminate]).
    subst eff. destruct (Nat.ltb_spec (length p + length (@nil byte)) 64);
      [| cbn [length] in *; lia].
    rewrite app_nil_r, absorb_short by exact Hp.
    cbn [fst snd length]. rewrite Z.add_0_r, u64_small by exact HL. reflexivity.
  - change (sha1.length (engine cv p L)) with L.
    unfold sha1.BLOCK_BYTES. change (64 - 1) with 63.
    rewrite land_63, Hoff.
    destruct (Z.ltb_spec (Z.of_nat (length m) + Z.of_nat (length p)) 64) as [Hfit|Hcross].
    + subst eff. destruct (Nat.ltb_spec (length p + length m) 64); [| lia].
      rewrite copyBytes_engine by (assumption || lia).
      cbn [mbind option_bind].
      rewrite absorb_short by (rewrite length_app; lia). reflexivity.
    + subst eff. destruct (Nat.ltb_spec (length p + length m) 64); [lia |].
      rewrite slice_Some by lia. cbn [mbind option_bind].
      rewrite Z.sub_0_r. rewrite drop_0.
      replace (Z.to_nat (64 - Z.of_nat (length p))) with (64 - length p)%nat by lia.
      set (head := take (64 - length p) m).
      assert (length head = (64 - length p)%nat) as Hh
        by (unfold head; rewrite length_take; lia).
      rewrite (copyBytes_engine cv p L head) by (assumption || lia).
      cbn [mbind option_bind]. unfold engine at 1.
      rewrite mixBits_compress by apply length_pack.
      replace (64 - Z.of_nat (length p) + Z.of_nat (length p)) with 64 by lia.
      assert (0 <= u64 (L + Z.of_nat (length head)) < 2 ^ 64) as HL1
        by (unfold u64; apply Z.mod_pos_bound; lia).
      rewrite (Write_loop_engine (length m)); try lia; try exact HL1.
      2:{ rewrite u64_mod_64. rewrite <- Z.add_mod_idemp_l, Hoff, Hh by lia.
          replace (Z.of_nat (length p) + Z.of_nat (64 - length p)) with 64 by lia.
          reflexivity. }
      cbn [mbind option_bind]. change (Z.to_nat 64) with 64%nat.
      rewrite (absorb_block cv (p ++ head ++ drop 64 m))
        by (rewrite !length_app; lia).
      rewrite app_assoc.
      rewrite take_app_length' by (rewrite length_app; lia).
      rewrite drop_app_length' by (rewrite length_app; lia).
      f_equal. f_equal.
      rewrite u64_add_l, length_app, Nat2Z.inj_add, Z.add_assoc. reflexivity.
Qed.

(** ** [write1bit] and the length field *)

Lemma be_value_zeros n : BigEndian.be_value (replicate n x00) = 0.
Proof.
  induction n as [|n IH]; [reflexivity |].
  change (replicate (S n) x00) with ([x00] ++ replicate n x00).
  rewrite be_value_app, IH. reflexivity.
Qed.

Lemma lor_shiftl_add v k c :
  0 <= v -> 0 <= k -> 0 <= c < 2 ^ k -> Z.lor (Z.shiftl v k) c = v * 2 ^ k + c.
Proof.
  intros Hv Hk Hc. rewrite <- Z.shiftl_mul_pow2 by exact Hk.
  apply Z.or_to_plus. apply Z.bits_inj'; intros i Hi.
  rewrite Z.land_spec, Z.bits_0.
  destruct (Z.lt_ge_cases i k).
  - rewrite Z.shiftl_spec_low by assumption. reflexivity.
  - assert (Z.testbit c i = false) as ->; [| apply andb_false_r].
    destruct (Z.eq_dec c 0) as [->|Hc0]; [apply Z.bits_0 |].
    apply Z.bits_above_log2; [lia |].
    assert (2 ^ k <= 2 ^ i) by (apply Z.pow_le_mono_r; lia).
    apply Z.log2_lt_pow2; lia.
Qed.

(** The word [write1bit] builds from the [r] message bytes of an unfinished
    word: those bytes, the byte [0x80], and zero bytes. *)
Lemma mark_word (t : list byte) :
  (length t <= 3)%nat ->
  let v := BigEndian.be_value t in
  let k := 8 * (3 - Z.of_nat (length t)) in
  BigEndian.be_value (t ++ x80 :: replicate (3 - length t) x00) =
  v * 2 ^ (k + 8) + 2 ^ (k + 7).
Proof.
  intros Ht v k. rewrite be_value_app.
  change (x80 :: replicate (3 - length t) x00)
    with ([x80] ++ replicate (3 - length t) x00).
  rewrite be_value_app, be_value_zeros, length_app, length_replicate.
  cbn [length]. change (BigEndian.be_value [x80]) with 128.
  subst v k.
  destruct t as [|a [|b [|c [|d t]]]]; cbn [length] in *; try lia;
    cbn [Nat.sub Nat.add]; change (Z.of_nat 0) with 0;
    change (Z.of_nat 1) with 1; change (Z.of_nat 2) with 2;
    change (Z.of_nat 3) with 3; change (Z.of_nat 4) with 4; lia.
Qed.

Lemma length_marked p : (length p < 64)%nat -> length (marked p) = 64%nat.
Proof.
  intros H. unfold marked. rewrite length_app. cbn [length].
  rewrite length_replicate. lia.
Qed.

Lemma word_at_zeros_tail p j :
  (length p + 1 <= 4 * j)%nat -> word_at (marked p) j = 0.
Proof.
  intros H. unfold word_at, marked.
  rewrite drop_app_ge by lia.
  replace (4 * j - length p)%nat with (S (4 * j - length p - 1)) by lia.
  cbn [drop]. rewrite drop_replicate, take_replicate. apply be_value_zeros.
Qed.

Lemma word_at_marked p :
  (length p < 64)%nat ->
  word_at (marked p) (length p / 4) =
  BigEndian.be_value
    (drop (4 * (length p / 4)) p ++
     x80 :: replicate (3 - length (drop (4 * (length p / 4)) p)) x00).
Proof.
  intros Hp. unfold word_at, marked.
  pose proof (Nat.div_mod_eq (length p) 4) as Hdm.
  pose proof (Nat.mod_upper_bound (length p) 4 ltac:(lia)) as Hub.
  rewrite drop_app_le by lia.
  set (t := drop (4 * (length p / 4)) p).
  assert (length t = (length p mod 4)%nat) as Ht
    by (unfold t; rewrite length_drop; lia).
  rewrite take_app_ge by lia.
  replace (4 - length t)%nat with (S (3 - length t)) by lia.
  cbn [take]. rewrite take_replicate.
  replace ((3 - length t) `min` (63 - length p))%nat with (3 - length t)%nat by lia.
  reflexivity.
Qed.

(** [write1bit] on the block of an engine that holds [p]. *)
Lemma write1bit_pack p :
  (length p < 64)%nat ->
  sha1.write1bit (pack p) (Z.of_nat (length p)) = Some (pack (marked p)).
Proof.
  intros Hp. unfold sha1.write1bit.
  pose proof (Nat.div_mod_eq (length p) 4) as Hdm.
  pose proof (Nat.mod_upper_bound (length p) 4 ltac:(lia)) as Hub.
  set (t := drop (4 * (length p / 4)) p).
  assert (length t = (length p mod 4)%nat) as Ht
    by (unfold t; rewrite length_drop; lia).
  assert (Z.shiftr (Z.of_nat (length p)) 2 = Z.of_nat (length p / 4)) as ->.
  { rewrite Z.shiftr_div_pow2 by lia. change (2 ^ 2) with 4.
    rewrite Nat2Z.inj_div. reflexivity. }
  assert (load (pack p) (Z.of_nat (length p / 4)) = Some (BigEndian.be_value t)) as Hload.
  { unfold load. destruct (Z.leb_spec 0 (Z.of_nat (length p / 4))); [| lia].
    rewrite Nat2Z.id. unfold t. rewrite <- word_at_partial.
    unfold pack. rewrite list_lookup_fmap, lookup_seq_lt by lia. reflexivity. }
  assert (forall w, w = word_at (marked p) (length p / 4) ->
            store (pack p) (Z.of_nat (length p / 4)) w = Some (pack (marked p))) as Hstore.
  { intros w Hw. unfold store. rewrite length_pack.
    destruct (Z.leb_spec 0 (Z.of_nat (length p / 4))); [| lia].
    destruct (Z.ltb_spec (Z.of_nat (length p / 4)) (Z.of_nat 16)); [| lia].
    cbn [andb]. rewrite Nat2Z.id. f_equal.
    apply pack_intro; [rewrite length_insert; apply length_pack |].
    intros j Hj. destruct (Nat.eq_dec j (length p / 4)%nat) as [->|Hne].
    - unfold get. rewrite list_lookup_insert_eq by (rewrite length_pack; lia).
      exact Hw.
    - unfold get. rewrite list_lookup_insert_ne by lia. fold (get (pack p) j).
      rewrite get_pack by exact Hj.
      destruct (Nat.lt_ge_cases j (length p / 4)).
      + symmetry. apply word_at_app_full. lia.
      + rewrite word_at_beyond by lia. symmetry. apply word_at_zeros_tail. lia. }
  pose proof (be_value_lt t (length t) (Nat.le_refl _)) as Hv.
  rewrite land_3. change 4 with (Z.of_nat 4). rewrite <- Nat2Z.inj_mod.
  rewrite <- Ht. rewrite Hload. cbn [mbind option_bind].
  pose proof (mark_word t ltac:(lia)) as Hmark. cbn zeta in Hmark.
  fold t in Hmark. rewrite word_at_marked in Hstore by exact Hp. fold t in Hstore.
  destruct (length t) as [|[|[|[|n]]]] eqn:El; [| | | | lia].
  - change (Z.of_nat 0) with 0. cbv iota. apply Hstore. rewrite Hmark.
    destruct t; [| discriminate El]. reflexivity.
  - change (Z.of_nat 1) with 1. cbv iota. apply Hstore. rewrite Hmark.
    change (256 ^ Z.of_nat 1) with (2 ^ 8) in Hv.
    unfold shl32, u32. rewrite Z.shiftl_mul_pow2 by lia.
    rewrite Z.mod_small by lia. rewrite <- Z.shiftl_mul_pow2 by lia.
    rewrite lor_shiftl_add by lia. reflexivity.
  - change (Z.of_nat 2) with 2. cbv iota. apply Hstore. rewrite Hmark.
    change (256 ^ Z.of_nat 2) with (2 ^ 16) in Hv.
    unfold shl32, u32. rewrite Z.shiftl_mul_pow2 by lia.
    rewrite Z.mod_small by lia. rewrite <- Z.shiftl_mul_pow2 by lia.
    rewrite lor_shiftl_add by lia. reflexivity.
  - change (Z.of_nat 3) with 3. cbv iota. apply Hstore. rewrite Hmark.
    change (256 ^ Z.of_nat 3) with (2 ^ 24) in Hv.
    unfold shl32, u32. rewrite Z.shiftl_mul_pow2 by lia.
    rewrite Z.mod_small by lia. rewrite <- Z.shiftl_mul_pow2 by lia.
    rewrite lor_shiftl_add by lia. reflexivity.
Qed.

Lemma be_value_bytes_of_Uint32 v :
  BigEndian.be_value (BigEndian.bytes_of_Uint32 v) = v mod 2 ^ 32.
Proof.
  unfold BigEndian.bytes_of_Uint32, BigEndian.be_value. cbn [fold_left].
  rewrite !Z_of_byte_of_Z, !Z.shiftr_div_pow2 by lia.
  change (2 ^ 24) with 16777216. change (2 ^ 16) with 65536.
  change (2 ^ 8) with 256. change (2 ^ 32) with 4294967296.
  Z.div_mod_to_equations. lia.
Qed.

Lemma bytes_of_Uint64_split V :
  BigEndian.bytes_of_Uint64 V =
  BigEndian.bytes_of_Uint32 (Z.shiftr V 32) ++ BigEndian.bytes_of_Uint32 V.
Proof.
  unfold BigEndian.bytes_of_Uint64, BigEndian.bytes_of_Uint32.
  rewrite !Z.shiftr_shiftr by lia. reflexivity.
Qed.

Lemma length_field_hi L :
  0 <= L ->
  BigEndian.be_value (take 4 (length_field L)) = u32 (Z.shiftr L 29).
Proof.
  intros HL. unfold length_field. rewrite bytes_of_Uint64_split.
  rewrite take_app_length' by reflexivity.
  rewrite be_value_bytes_of_Uint32. unfold u32, u64.
  rewrite !Z.shiftr_div_pow2 by lia.
  change (2 ^ 32) with 4294967296. change (2 ^ 64) with 18446744073709551616.
  change (2 ^ 29) with 536870912.
  Z.div_mod_to_equations. lia.
Qed.

Lemma length_field_lo L :
  0 <= L ->
  BigEndian.be_value (drop 4 (length_field L)) =
  shl32 (u32 (Z.land L 0x1FFFFFFF)) 3.
Proof.
  intros HL. unfold length_field. rewrite bytes_of_Uint64_split.
  rewrite drop_app_length' by reflexivity.
  rewrite be_value_bytes_of_Uint32. unfold shl32, u32, u64.
  change 0x1FFFFFFF with (Z.ones 29). rewrite Z.land_ones by lia.
  rewrite Z.shiftl_mul_pow2 by lia.
  change (2 ^ 32) with 4294967296. change (2 ^ 64) with 18446744073709551616.
  change (2 ^ 29) with 536870912. change (2 ^ 3) with 8.
  Z.div_mod_to_equations. lia.
Qed.

Lemma length_length_field L : length (length_field L) = 8%nat.
Proof. reflexivity. Qed.

(** Writing the length into words 14 and 15 of a block. *)
Lemma set_length_words s L :
  length s = 64%nat -> 0 <= L ->
  set (set (pack s) (sha1.BLOCK_INTS - 2) (u32 (Z.shiftr L 29)))
      (sha1.BLOCK_INTS - 1) (shl32 (u32 (Z.land L 0x1FFFFFFF)) 3) =
  pack (take 56 s ++ length_field L).
Proof.
  intros Hs HL. change (sha1.BLOCK_INTS - 2)%nat with 14%nat.
  change (sha1.BLOCK_INTS - 1)%nat with 15%nat.
  apply pack_intro; [rewrite !length_set; apply length_pack |].
  intros j Hj.
  assert (length (take 56 s) = 56%nat) as Ht by (rewrite length_take; lia).
  destruct (Nat.eq_dec j 15%nat) as [->|H15];
    [| destruct (Nat.eq_dec j 14%nat) as [->|H14]].
  - rewrite get_set_eq by (rewrite length_set, length_pack; lia).
    rewrite <- length_field_lo by exact HL. unfold word_at.
    rewrite drop_app_ge by lia. rewrite Ht. change (4 * 15 - 56)%nat with 4%nat.
    rewrite take_ge; [reflexivity |]. rewrite length_drop, length_length_field. lia.
  - rewrite get_set_ne by lia. rewrite get_set_eq by (rewrite length_pack; lia).
    rewrite <- length_field_hi by exact HL. unfold word_at.
    rewrite drop_app_ge by lia. rewrite Ht. change (4 * 14 - 56)%nat with 0%nat.
    rewrite drop_0. reflexivity.
  - rewrite !get_set_ne by lia. rewrite get_pack by exact Hj.
    rewrite word_at_app_full by lia. unfold word_at.
    rewrite <- (take_drop 56 s) at 1.
    rewrite drop_app_le by lia. rewrite take_app_le; [reflexivity |].
    rewrite length_drop. lia.
Qed.

(** ** [Hash] *)

Lemma length_compress cv blk : length (compress cv blk) = length cv.
Proof.
  unfold compress.
  exact (proj2 (proj2 (mixBits_shape (sha1.mkHasher blk 0 cv)
                                     (replicate sha1.SCRATCH_INTS 0)))).
Qed.

Lemma pack_zero_block : pack (replicate 64 x00) = pack [].
Proof. reflexivity. Qed.

Lemma Reset_engine blk L cv :
  length blk = 16%nat -> length cv = 5%nat ->
  sha1.Reset (sha1.mkHasher blk L cv) = sha1.New.
Proof.
  intros Hb Hc. rewrite New_unfold. apply Reset_unfold.
  split; [exact Hb | exact Hc].
Qed.

Lemma absorb_one_block cv s :
  length s = 64%nat -> absorb cv s = (compress cv (pack s), []).
Proof.
  intros Hs. rewrite absorb_block by lia.
  rewrite take_ge, drop_ge by lia. apply absorb_short. cbn. lia.
Qed.

Lemma absorb_two_blocks cv s t :
  length s = 64%nat -> length t = 64%nat ->
  absorb cv (s ++ t) = (compress (compress cv (pack s)) (pack t), []).
Proof.
  intros Hs Ht. rewrite absorb_block by (rewrite length_app; lia).
  rewrite take_app_length', drop_app_length' by (symmetry; exact Hs).
  apply absorb_one_block, Ht.
Qed.

(** [Hash] on an engine that holds [p] and has counted [L] bytes: it does not
    panic, the digest is the chain value after the padded tail has been mixed
    in, and the engine is left as [New] makes it. *)
Lemma Hash_engine cv p L :
  length cv = 5%nat ->
  (length p < 64)%nat -> 0 <= L < 2 ^ 64 -> L mod 64 = Z.of_nat (length p) ->
  sha1.Hash (engine cv p L) =
  Some (sha1.newDigest (fst (absorb cv (tail_padding p L))), sha1.New).
Proof.
  intros Hc Hp HL Hoff. unfold sha1.Hash, engine.
  cbn [sha1.block sha1.length sha1.chainValue].
  rewrite land_63, Hoff.
  assert (u8 (Z.of_nat (length p)) = Z.of_nat (length p)) as ->
    by (unfold u8; apply Z.mod_small; lia).
  rewrite write1bit_pack by exact Hp.
  cbn [mbind option_bind sha1.block sha1.length sha1.chainValue].
  pose proof (length_marked p Hp) as Hm.
  unfold tail_padding.
  destruct (Z.leb_spec 56 (Z.of_nat (length p))) as [Hbig|Hsmall].
  - destruct (Nat.ltb_spec (length p) 56); [lia |].
    rewrite mixBits_compress by apply length_pack.
    cbv beta iota. unfold engine.
    cbn [sha1.block sha1.length sha1.chainValue].
    rewrite <- pack_zero_block.
    rewrite set_length_words by (rewrite ?length_replicate; lia || reflexivity).
    rewrite mixBits_compress by apply length_pack.
    cbv beta iota. unfold engine.
    cbn [sha1.block sha1.length sha1.chainValue].
    rewrite Reset_engine;
      [| apply length_pack | rewrite !length_compress; exact Hc].
    change (take 56 (replicate 64 x00)) with (replicate 56 x00).
    replace (p ++ x80 :: replicate (119 - length p) x00 ++ length_field L)
      with (marked p ++ (replicate 56 x00 ++ length_field L)).
    2:{ unfold marked. rewrite <- app_assoc. cbn [app]. f_equal. f_equal.
        rewrite app_assoc. f_equal. rewrite <- replicate_add. f_equal. lia. }
    rewrite absorb_two_blocks by (exact Hm || reflexivity).
    cbn [fst]. reflexivity.
  - destruct (Nat.ltb_spec (length p) 56); [| lia].
    cbv beta iota. cbn [sha1.block sha1.length sha1.chainValue].
    rewrite set_length_words by (exact Hm || lia).
    rewrite mixBits_compress by apply length_pack.
    cbv beta iota. unfold engine.
    cbn [sha1.block sha1.length sha1.chainValue].
    rewrite Reset_engine;
      [| apply length_pack | rewrite !length_compress; exact Hc].
    assert (take 56 (marked p) = p ++ x80 :: replicate (55 - length p) x00) as ->.
    { unfold marked. rewrite take_app_ge by lia.
      replace (56 - length p)%nat with (S (55 - length p)) by lia.
      cbn [take]. rewrite take_replicate. do 3 f_equal. lia. }
    rewrite <- app_assoc. cbn [app].
    rewrite absorb_one_block; [cbn [fst]; reflexivity |].
    rewrite length_app. cbn [length]. rewrite length_app, length_replicate.
    rewrite length_length_field. lia.
Qed.

(** ** Engines that have taken in a message *)

Lemma absorb_app cv s t :
  absorb cv (s ++ t) = absorb (fst (absorb cv s)) (snd (absorb cv s) ++ t).
Proof.
  remember (length s) as n eqn:Hn. revert cv s Hn.
  induction n as [n IH] using lt_wf_ind. intros cv s Hn.
  destruct (Nat.lt_ge_cases (length s) 64) as [Hlt|Hge].
  - rewrite (absorb_short cv s Hlt). reflexivity.
  - rewrite (absorb_block cv s Hge).
    rewrite (absorb_block cv (s ++ t)) by (rewrite length_app; lia).
    rewrite take_app_le, drop_app_le by lia.
    apply (IH (length (drop 64 s))); [rewrite length_drop; lia | reflexivity].
Qed.

Lemma length_absorb cv s : length (snd (absorb cv s)) = (length s mod 64)%nat.
Proof.
  remember (length s) as n eqn:Hn. revert cv s Hn.
  induction n as [n IH] using lt_wf_ind. intros cv s Hn.
  destruct (Nat.lt_ge_cases (length s) 64) as [Hlt|Hge].
  - rewrite (absorb_short cv s Hlt). cbn [snd]. subst n.
    rewrite Nat.mod_small by exact Hlt. reflexivity.
  - rewrite (absorb_block cv s Hge).
    rewrite (IH (length (drop 64 s)) ltac:(rewrite length_drop; lia) _ _ eq_refl).
    rewrite length_drop. subst n.
    replace (length s) with ((length s - 64) + 1 * 64)%nat at 2 by lia.
    rewrite Nat.Div0.mod_add. reflexivity.
Qed.

Lemma length_absorb_cv cv s : length (fst (absorb cv s)) = length cv.
Proof.
  remember (length s) as n eqn:Hn. revert cv s Hn.
  induction n as [n IH] using lt_wf_ind. intros cv s Hn.
  destruct (Nat.lt_ge_cases (length s) 64) as [Hlt|Hge].
  - rewrite (absorb_short cv s Hlt). reflexivity.
  - rewrite (absorb_block cv s Hge).
    rewrite (IH (length (drop 64 s)) ltac:(rewrite length_drop; lia) _ _ eq_refl).
    apply length_compress.
Qed.

Lemma absorbed_nil : absorbed [] = sha1.New.
Proof. reflexivity. Qed.

Lemma absorbed_offset m :
  u64 (Z.of_nat (length m)) mod 64 =
  Z.of_nat (length (snd (absorb initial_chainValue m))).
Proof.
  rewrite u64_mod_64, length_absorb.
  rewrite Nat2Z.inj_mod. reflexivity.
Qed.

Lemma u64_range x : 0 <= u64 x < 2 ^ 64.
Proof. unfold u64. apply Z.mod_pos_bound. lia. Qed.

Lemma length_residue_lt cv m : (length (snd (absorb cv m)) < 64)%nat.
Proof. rewrite length_absorb. apply Nat.mod_upper_bound. lia. Qed.

(** [Write] on the engine that has taken in [m]: it does not panic, returns
    the length of its argument, and the engine has taken in [m] and the bytes
    [written] keeps of [x]. *)
Lemma Write_absorbed m x :
  sha1.Write (absorbed m) x =
  Some (absorbed (m ++ written (length m mod 64) x), Z.of_nat (length x)).
Proof.
  unfold absorbed at 1.
  rewrite Write_engine;
    [| apply length_residue_lt | apply u64_range | apply absorbed_offset].
  cbv zeta. rewrite length_absorb. fold (written (length m mod 64) x).
  rewrite <- absorb_app. unfold absorbed.
  rewrite u64_add_l, length_app, Nat2Z.inj_add. reflexivity.
Qed.

Lemma length_field_u64 L : length_field (u64 L) = length_field L.
Proof.
  unfold length_field, u64. f_equal. apply Zmult_mod_idemp_r.
Qed.

Lemma tail_padding_padded m :
  m ++ drop (length m) (padded m) = padded m.
Proof. unfold padded. rewrite drop_app_length. reflexivity. Qed.

(** [Hash] on the engine that has taken in [m]: it does not panic, the digest
    is the chain value after the blocks of the padded message, and the engine
    is left as [New] makes it. *)
Lemma Hash_absorbed m :
  sha1.Hash (absorbed m) =
  Some (sha1.newDigest (fst (absorb initial_chainValue (padded m))), sha1.New).
Proof.
  unfold absorbed.
  rewrite Hash_engine;
    [| rewrite length_absorb_cv; reflexivity | apply length_residue_lt
     | apply u64_range | apply absorbed_offset].
  do 3 f_equal. unfold tail_padding, padded.
  rewrite length_field_u64, (absorb_app _ m), length_absorb.
  pose proof (Nat.mod_upper_bound (length m) 64 ltac:(lia)) as Hub.
  assert ((if (length m mod 64 <? 56)%nat then 55 - length m mod 64
           else 119 - length m mod 64)%nat
          = ((119 - length m mod 64) mod 64)%nat) as ->; [| reflexivity].
  generalize dependent (length m mod 64)%nat. intros x Hub.
  destruct (Nat.ltb_spec x 56).
  - replace (119 - x)%nat with ((55 - x) + 1 * 64)%nat by lia.
    rewrite Nat.Div0.mod_add, Nat.mod_small by lia. reflexivity.
  - rewrite Nat.mod_small by lia. reflexivity.
Qed.

Lemma write_chunks_absorbed chunks : forall m,
  write_chunks (absorbed m) chunks = Some (absorbed (taken m chunks)).
Proof.
  induction chunks as [|c chunks IH]; intros m; cbn [write_chunks taken].
  - reflexivity.
  - rewrite Write_absorbed. cbn [mbind option_bind]. apply IH.
Qed.

Lemma written_fits o x :
  (o = 0 \/ o + length x <= 64)%nat -> written o x = x.
Proof.
  intros H. unfold written. destruct (Nat.ltb_spec (o + length x) 64) as [|Hge].
  - reflexivity.
  - destruct H as [->|H].
    + apply take_drop.
    + rewrite (drop_ge x 64) by lia. rewrite take_ge by lia. apply app_nil_r.
Qed.

Lemma taken_fitting chunks : forall m,
  fitting (length m) chunks -> taken m chunks = m ++ concat chunks.
Proof.
  induction chunks as [|c chunks IH]; intros m; cbn [fitting taken concat].
  - intros _. symmetry. apply app_nil_r.
  - intros [Hc Hrest]. rewrite written_fits by exact Hc.
    rewrite IH by (rewrite length_app; exact Hrest).
    symmetry. apply app_assoc.
Qed.

Lemma HashBytes_absorb m :
  sha1.HashBytes m =
  Some (sha1.newDigest (fst (absorb initial_chainValue (padded m)))).
Proof.
  unfold sha1.HashBytes. rewrite <- absorbed_nil, Write_absorbed.
  cbn [mbind option_bind app length]. rewrite Hash_absorbed.
  cbn [mbind option_bind]. rewrite written_fits by (left; reflexivity).
  reflexivity.
Qed.

(** ** The rounds and the compression function of the standard *)

Lemma f_choice_Ch b c d : sha1.f_choice b c d = FIPS.Ch b c d.
Proof.
  unfold sha1.f_choice, FIPS.Ch. apply Z.bits_inj'. intros n Hn.
  rewrite !Z.lxor_spec, !Z.land_spec, Z.lxor_spec, Z.lnot_spec by exact Hn.
  destruct (Z.testbit b n), (Z.testbit c n), (Z.testbit d n); reflexivity.
Qed.

Lemma f_majority_Maj b c d : sha1.f_majority b c d = FIPS.Maj b c d.
Proof.
  unfold sha1.f_majority, FIPS.Maj. apply Z.bits_inj'. intros n Hn.
  rewrite !Z.lxor_spec, Z.lor_spec, !Z.land_spec, Z.lor_spec.
  destruct (Z.testbit b n), (Z.testbit c n), (Z.testbit d n); reflexivity.
Qed.

Lemma get_nth (a : list Z) i : get a i = nth i a 0.
Proof. unfold get. symmetry. apply nth_lookup. Qed.

Lemma round_step f K W v t :
  vars_u32 v -> (forall b c d, f b c d = FIPS.f t b c d) -> K = FIPS.K t ->
  sha1.round f K W v t = FIPS.step W v t /\ vars_u32 (sha1.round f K W v t).
Proof.
  destruct v as [[[[a b] c] d] e]. intros (Ha & Hb & Hc & Hd & He) Hf HK.
  unfold sha1.round, FIPS.step. split.
  - rewrite Hf, HK, get_nth, !rotateL_ROTL by (assumption || lia). reflexivity.
  - unfold vars_u32.
    refine (conj _ (conj Ha (conj _ (conj Hc Hd)))).
    + apply is_u32_u32.
    + apply is_u32_rotateL; [assumption | lia].
Qed.

Lemma fold_round_step f K W lo hi :
  (forall t, (lo <= t < hi)%nat ->
     (forall b c d, f b c d = FIPS.f t b c d) /\ K = FIPS.K t) ->
  forall n s v, (lo <= s)%nat -> (s + n <= hi)%nat -> vars_u32 v ->
    fold_left (sha1.round f K W) (seq s n) v = fold_left (FIPS.step W) (seq s n) v /\
    vars_u32 (fold_left (sha1.round f K W) (seq s n) v).
Proof.
  intros Hpass. induction n as [|n IH]; intros s v Hlo Hhi Hv; cbn [seq fold_left].
  - split; [reflexivity | exact Hv].
  - destruct (Hpass s ltac:(lia)) as [Hf HK].
    destruct (round_step f K W v s Hv Hf HK) as [E Hv'].
    destruct (IH (S s) _ ltac:(lia) ltac:(lia) Hv') as [E' Hv''].
    split; [rewrite E', E; reflexivity | exact Hv''].
Qed.

Lemma pass_0 t : (0 <= t < 20)%nat ->
  (forall b c d, sha1.f_choice b c d = FIPS.f t b c d) /\ sha1.K_0 = FIPS.K t.
Proof.
  intros Ht. unfold FIPS.f, FIPS.K.
  destruct (Nat.ltb_spec t 20); [| lia].
  split; [apply f_choice_Ch | reflexivity].
Qed.

Lemma pass_1 t : (20 <= t < 40)%nat ->
  (forall b c d, sha1.f_parity b c d = FIPS.f t b c d) /\ sha1.K_1 = FIPS.K t.
Proof.
  intros Ht. unfold FIPS.f, FIPS.K.
  destruct (Nat.ltb_spec t 20); [lia |]. destruct (Nat.ltb_spec t 40); [| lia].
  split; reflexivity.
Qed.

Lemma pass_2 t : (40 <= t < 60)%nat ->
  (forall b c d, sha1.f_majority b c d = FIPS.f t b c d) /\ sha1.K_2 = FIPS.K t.
Proof.
  intros Ht. unfold FIPS.f, FIPS.K.
  destruct (Nat.ltb_spec t 20); [lia |]. destruct (Nat.ltb_spec t 40); [lia |].
  destruct (Nat.ltb_spec t 60); [| lia].
  split; [apply f_majority_Maj | reflexivity].
Qed.

Lemma pass_3 t : (60 <= t < 80)%nat ->
  (forall b c d, sha1.f_parity b c d = FIPS.f t b c d) /\ sha1.K_3 = FIPS.K t.
Proof.
  intros Ht. unfold FIPS.f, FIPS.K.
  destruct (Nat.ltb_spec t 20); [lia |]. destruct (Nat.ltb_spec t 40); [lia |].
  destruct (Nat.ltb_spec t 60); [lia |].
  split; reflexivity.
Qed.

(** The four unrolled passes of [mixBits] are the eighty steps of 6.1.2. *)
Lemma rounds_steps W v :
  vars_u32 v ->
  sha1.rounds W v = fold_left (FIPS.step W) (seq 0 80) v /\
  vars_u32 (sha1.rounds W v).
Proof.
  intros Hv. unfold sha1.rounds.
  change (seq 0 80) with (seq 0 20 ++ seq 20 20 ++ seq 40 20 ++ seq 60 20).
  rewrite !fold_left_app.
  destruct (fold_round_step _ _ W 0 20 pass_0 20 0 v ltac:(lia) ltac:(lia) Hv)
    as [E0 H0].
  rewrite <- E0.
  destruct (fold_round_step _ _ W 20 40 pass_1 20 20 _ ltac:(lia) ltac:(lia) H0)
    as [E1 H1].
  rewrite <- E1.
  destruct (fold_round_step _ _ W 40 60 pass_2 20 40 _ ltac:(lia) ltac:(lia) H1)
    as [E2 H2].
  rewrite <- E2.
  destruct (fold_round_step _ _ W 60 80 pass_3 20 60 _ ltac:(lia) ltac:(lia) H2)
    as [E3 H3].
  rewrite <- E3. split; [reflexivity | exact H3].
Qed.

(** The schedule [mixBits] computes does not depend on what the scratch array
    held. *)
Lemma schedule_W_extend blk scratch :
  length blk = 16%nat -> Forall is_u32 blk ->
  length scratch = 80%nat -> Forall is_u32 scratch ->
  sha1.schedule blk scratch = spec.W_extend 64 blk.
Proof.
  intros Hb Hbr Hs Hsr.
  rewrite schedule_single_recurrence by assumption.
  destruct (fold_load blk 16 0 scratch) as (Hlen0 & Hrange0 & Hget0).
  set (w0 := fold_left (sha1.sched_load blk) (seq 0 16) scratch) in *.
  apply array_ext.
  - rewrite length_fold_step1, length_W_extend, Hb, Hlen0, Hs. reflexivity.
  - rewrite length_fold_step1, Hlen0, Hs. intros i Hi.
    apply (fold_step1_W_extend 64 16 w0 blk); try lia;
      [rewrite Hlen0; exact Hs | apply Hrange0; assumption |].
    intros j Hj. rewrite Hget0 by lia.
    destruct (decide _); [reflexivity | lia].
Qed.

Lemma is_u32_add x y : is_u32 (FIPS.add x y).
Proof. apply is_u32_u32. Qed.

Lemma FIPS_compress_typed H M :
  length (FIPS.compress H M) = 5%nat /\ Forall is_u32 (FIPS.compress H M).
Proof.
  unfold FIPS.compress.
  destruct (fold_left _ _ _) as [[[[a b] c] d] e].
  split; [reflexivity |].
  repeat (constructor; [apply is_u32_add |]). constructor.
Qed.

Lemma mixBits_FIPS blk L cv scratch :
  length blk = 16%nat -> Forall is_u32 blk ->
  length cv = 5%nat -> Forall is_u32 cv ->
  length scratch = 80%nat -> Forall is_u32 scratch ->
  sha1.mixBits (sha1.mkHasher blk L cv) scratch =
  (sha1.mkHasher (replicate 16 0) L (FIPS.compress cv blk), replicate 80 0).
Proof.
  intros Hb Hbr Hc Hcr Hs Hsr. unfold sha1.mixBits, FIPS.compress.
  cbn [sha1.block sha1.length sha1.chainValue].
  assert (length (sha1.schedule blk scratch) = 80%nat) as Hlen
    by (rewrite length_schedule; exact Hs).
  rewrite (schedule_W_extend blk scratch) in * by assumption.
  unfold spec.schedule. rewrite take_ge by lia.
  generalize dependent (spec.W_extend 64 blk). intros W HW.
  do 5 (destruct cv as [|? cv]; [discriminate Hc |]).
  destruct cv; [| discriminate Hc].
  repeat match goal with H : Forall _ (_ :: _) |- _ => inversion_clear H end.
  change (get [z; z0; z1; z2; z3] 0) with z.
  change (get [z; z0; z1; z2; z3] 1) with z0.
  change (get [z; z0; z1; z2; z3] 2) with z1.
  change (get [z; z0; z1; z2; z3] 3) with z2.
  change (get [z; z0; z1; z2; z3] 4) with z3.
  cbn [nth].
  destruct (rounds_steps W (z, z0, z1, z2, z3)) as [E _];
    [unfold vars_u32; auto |].
  rewrite E.
  destruct (fold_left _ _ _) as [[[[a b] c] d] e].
  unfold clear. rewrite Hb, HW.
  unfold add32, FIPS.add, u32, set. cbn [insert list_insert].
  rewrite !(Z.add_comm _ a), !(Z.add_comm _ b), !(Z.add_comm _ c),
          !(Z.add_comm _ d), !(Z.add_comm _ e).
  reflexivity.
Qed.

Lemma Forall_replicate_u32 n : Forall is_u32 (replicate n 0).
Proof. apply Forall_replicate. unfold is_u32. lia. Qed.

Lemma compress_FIPS cv blk :
  length cv = 5%nat -> Forall is_u32 cv ->
  length blk = 16%nat -> Forall is_u32 blk ->
  compress cv blk = FIPS.compress cv blk.
Proof.
  intros Hc Hcr Hb Hbr. unfold compress.
  rewrite mixBits_FIPS;
    [reflexivity | assumption | assumption | assumption | assumption
     | apply length_replicate | apply Forall_replicate_u32].
Qed.

Lemma pack_u32 s : Forall is_u32 (pack s).
Proof.
  unfold pack. apply Forall_map, Forall_forall. intros j _.
  unfold word_at, is_u32.
  change (2 ^ 32) with (256 ^ Z.of_nat 4). apply be_value_lt.
  rewrite length_take. lia.
Qed.

Lemma absorb_blocks_iterate n : forall cv s,
  length cv = 5%nat -> Forall is_u32 cv ->
  fst (absorb_blocks n cv s) = FIPS.iterate n cv s.
Proof.
  induction n as [|n IH]; intros cv s Hc Hcr; cbn [absorb_blocks FIPS.iterate].
  - reflexivity.
  - rewrite compress_FIPS by (assumption || apply length_pack || apply pack_u32).
    destruct (FIPS_compress_typed cv (pack (take 64 s))) as [Hl Hr].
    apply IH; assumption.
Qed.

Lemma initial_chainValue_u32 : Forall is_u32 initial_chainValue.
Proof. apply (bool_decide_unpack (Forall is_u32 _)). vm_compute. exact I. Qed.

Lemma padding_zeros n :
  ((119 - n mod 64) mod 64)%nat = Z.to_nat ((55 - Z.of_nat n) mod 64).
Proof.
  apply Nat2Z.inj. rewrite Z2Nat.id by (apply Z.mod_pos_bound; lia).
  pose proof (Nat.mod_upper_bound n 64 ltac:(lia)) as Hub.
  rewrite Nat2Z.inj_mod, Nat2Z.inj_sub by lia. rewrite Nat2Z.inj_mod.
  change (Z.of_nat 119) with 119. change (Z.of_nat 64) with 64.
  generalize (Z.of_nat n) (Nat2Z.is_nonneg n). intros z Hz.
  Z.div_mod_to_equations. lia.
Qed.

Lemma padded_pad m :
  8 * Z.of_nat (length m) < 2 ^ 64 -> padded m = FIPS.pad m.
Proof.
  intros H. unfold padded, FIPS.pad, length_field.
  rewrite padding_zeros, u64_small by lia. reflexivity.
Qed.

Lemma newDigest_concat cv :
  length cv = 5%nat ->
  sha1.newDigest cv = sha1.mkDigest (concat (map BigEndian.bytes_of_Uint32 cv)).
Proof.
  intros Hc.
  do 5 (destruct cv as [|? cv]; [discriminate Hc |]).
  destruct cv; [| discriminate Hc].
  unfold sha1.newDigest. cbn [map concat]. rewrite app_nil_r. reflexivity.
Qed.

Lemma digest_SHA1 m :
  8 * Z.of_nat (length m) < 2 ^ 64 ->
  sha1.newDigest (fst (absorb initial_chainValue (padded m))) =
  sha1.mkDigest (FIPS.SHA1 m).
Proof.
  intros H. rewrite newDigest_concat by (rewrite length_absorb_cv; reflexivity).
  unfold absorb, FIPS.SHA1.
  rewrite absorb_blocks_iterate by (reflexivity || apply initial_chainValue_u32).
  rewrite padded_pad by exact H. reflexivity.
Qed.

Lemma FIPS_SHA1_abc :
  encode.hex (FIPS.SHA1 [x61; x62; x63]) =
  "A9993E364706816ABA3E25717850C26C9CD0D89D"%string.
Proof. vm_compute. reflexivity. Qed.

(** ** The package on every input *)

Lemma engine_reachable_absorbed h :
  engine_reachable h -> exists m, h = absorbed m.
Proof.
  induction 1 as [|h x h' n _ [m ->] HW|h d h' _ [m ->] HH|h _ [m ->]].
  - exists []. symmetry. apply absorbed_nil.
  - rewrite Write_absorbed in HW. injection HW as <- _. eauto.
  - rewrite Hash_absorbed in HH. injection HH as _ <-.
    exists []. symmetry. apply absorbed_nil.
  - exists []. unfold absorbed at 1, engine.
    apply Reset_engine; [apply length_pack |].
    rewrite length_absorb_cv. reflexivity.
Qed.

(** X1.  [mixBits] on an engine of 32-bit words computes the compression function
    of FIPS 180-4 (section 6.1.2) on the block and the chain value, whatever
    the scratch array held; it zeroes the block and the scratch array and
    keeps the byte count; the new chain value is again five 32-bit words. *)
Theorem mixBits_is_FIPS_compress blk L cv scratch :
  length blk = 16%nat -> Forall is_u32 blk ->
  length cv = 5%nat -> Forall is_u32 cv ->
  length scratch = 80%nat -> Forall is_u32 scratch ->
  sha1.mixBits (sha1.mkHasher blk L cv) scratch =
    (sha1.mkHasher (replicate 16 0) L (FIPS.compress cv blk), replicate 80 0) /\
  length (FIPS.compress cv blk) = 5%nat /\
  Forall is_u32 (FIPS.compress cv blk).
Proof.
  intros Hb Hbr Hc Hcr Hs Hsr.
  split; [apply mixBits_FIPS; assumption | apply FIPS_compress_typed].
Qed.

Lemma mixBits_is_FIPS_compress_witness :
  sha1.mixBits (sha1.mkHasher (0x80000000 :: replicate 15 0) 0 initial_chainValue)
               (replicate 80 7) =
    (sha1.mkHasher (replicate 16 0) 0
       (FIPS.compress initial_chainValue (0x80000000 :: replicate 15 0)),
     replicate 80 0) /\
  length (FIPS.compress initial_chainValue (0x80000000 :: replicate 15 0)) = 5%nat /\
  Forall is_u32 (FIPS.compress initial_chainValue (0x80000000 :: replicate 15 0)).
Proof.
  apply mixBits_is_FIPS_compress.
  - reflexivity.
  - apply (bool_decide_unpack (Forall is_u32 _)). vm_compute. exact I.
  - reflexivity.
  - apply (bool_decide_unpack (Forall is_u32 _)). vm_compute. exact I.
  - reflexivity.
  - apply (bool_decide_unpack (Forall is_u32 _)). vm_compute. exact I.
Defined.

(** X2.  [Write] takes in the whole of its argument when the engine's block is
    empty or the argument fits in what is left of the block: it returns the
    argument's length and the engine is the one that has taken in [m ++ x]. *)
Theorem Write_fitting m x :
  (length m mod 64 = 0 \/ length m mod 64 + length x <= 64)%nat ->
  sha1.Write (absorbed m) x = Some (absorbed (m ++ x), Z.of_nat (length x)).
Proof.
  intros H. rewrite Write_absorbed, written_fits by exact H. reflexivity.
Qed.

Lemma Write_fitting_witness :
  sha1.Write (absorbed [x61]) [x62; x63] =
  Some (absorbed ([x61] ++ [x62; x63]), Z.of_nat (length [x62; x63])).
Proof. apply Write_fitting. right. vm_compute. lia. Defined.

(** X3.  [Write] on an engine whose block holds [o > 0] bytes, with an argument
    that reaches past the block's end: the first [64 - o] bytes fill the
    block, the bytes [x[64-o : 64]] are passed over, the bytes from [x[64]] on
    are taken in, and the call still returns the argument's full length. *)
Theorem Write_overrun m x :
  (0 < length m mod 64)%nat -> (64 < length m mod 64 + length x)%nat ->
  sha1.Write (absorbed m) x =
    Some (absorbed (m ++ take (64 - length m mod 64) x ++ drop 64 x),
          Z.of_nat (length x)) /\
  (length (take (64 - length m mod 64) x ++ drop 64 x) < length x)%nat.
Proof.
  intros Ho Hx. rewrite Write_absorbed. unfold written.
  destruct (Nat.ltb_spec (length m mod 64 + length x) 64); [lia |].
  split; [reflexivity |].
  rewrite length_app, length_take, length_drop.
  pose proof (Nat.mod_upper_bound (length m) 64 ltac:(lia)) as Hub.
  generalize dependent (length m mod 64)%nat. intros o Ho Hx _ Hub. lia.
Qed.

Lemma Write_overrun_witness :
  sha1.Write (absorbed [x00]) (drop 1 msg65) =
    Some (absorbed ([x00] ++ take (64 - length [x00] mod 64) (drop 1 msg65)
                          ++ drop 64 (drop 1 msg65)),
          Z.of_nat (length (drop 1 msg65))) /\
  (length (take (64 - length [x00] mod 64) (drop 1 msg65)
           ++ drop 64 (drop 1 msg65)) < length (drop 1 msg65))%nat.
Proof. apply Write_overrun; vm_compute; lia. Defined.

(** X4.  [Hash] on the engine that has taken in [m] returns the SHA-1 digest of
    [m] as FIPS 180-4 defines it, and leaves the engine as [New] makes it. *)
Theorem Hash_is_SHA1 m :
  8 * Z.of_nat (length m) < 2 ^ 64 ->
  sha1.Hash (absorbed m) = Some (sha1.mkDigest (FIPS.SHA1 m), sha1.New).
Proof.
  intros H. rewrite Hash_absorbed, digest_SHA1 by exact H. reflexivity.
Qed.

Lemma Hash_is_SHA1_witness :
  sha1.Hash (absorbed [x61; x62; x63]) =
  Some (sha1.mkDigest (FIPS.SHA1 [x61; x62; x63]), sha1.New).
Proof. apply Hash_is_SHA1. vm_compute. reflexivity. Defined.

(** X5.  [HashBytes] returns the SHA-1 digest of its input as FIPS 180-4 defines
    it, for every input of fewer than 2^61 bytes. *)
Theorem HashBytes_is_SHA1 m :
  8 * Z.of_nat (length m) < 2 ^ 64 ->
  sha1.HashBytes m = Some (sha1.mkDigest (FIPS.SHA1 m)).
Proof.
  intros H. rewrite HashBytes_absorb, digest_SHA1 by exact H. reflexivity.
Qed.

Lemma HashBytes_is_SHA1_witness :
  sha1.HashBytes msg65 = Some (sha1.mkDigest (FIPS.SHA1 msg65)).
Proof. apply HashBytes_is_SHA1. vm_compute. reflexivity. Defined.

(** X6.  [HashBytes] does not panic and returns twenty bytes, for every input. *)
Theorem HashBytes_total m :
  exists d, sha1.HashBytes m = Some d /\ length (sha1.Bytes d) = 20%nat.
Proof.
  eexists. split; [apply HashBytes_absorb | apply length_newDigest].
Qed.

(** X7.  Any sequence of [Write] calls on a fresh engine followed by [Hash] gives
    the digest of the bytes the calls took in, which [taken] lists. *)
Theorem hash_chunks_taken chunks :
  hash_chunks chunks = sha1.HashBytes (taken [] chunks).
Proof.
  unfold hash_chunks. rewrite <- absorbed_nil, write_chunks_absorbed.
  cbn [mbind option_bind]. rewrite Hash_absorbed, HashBytes_absorb.
  reflexivity.
Qed.

(** X8.  Writing a message in chunks gives the digest of the whole message when
    every chunk finds an empty block or fits in what is left of the block. *)
Theorem hash_chunks_fitting chunks :
  fitting 0 chunks -> hash_chunks chunks = sha1.HashBytes (concat chunks).
Proof.
  intros H. unfold hash_chunks.
  rewrite <- absorbed_nil, write_chunks_absorbed.
  cbn [mbind option_bind]. rewrite Hash_absorbed, HashBytes_absorb.
  rewrite (taken_fitting chunks []) by exact H. reflexivity.
Qed.

Lemma hash_chunks_fitting_witness :
  hash_chunks [take 64 msg65; drop 64 msg65] =
  sha1.HashBytes (concat [take 64 msg65; drop 64 msg65]).
Proof.
  apply hash_chunks_fitting.
  split; [left; reflexivity |]. split; [left; reflexivity | exact I].
Defined.

(** X9.  On every engine state reachable from [New] by [Write], [Hash] and
    [Reset], [Write] does not panic, returns the length of its argument and
    leaves a reachable state, and [Hash] does not panic, returns twenty bytes
    and leaves the engine as [New] makes it. *)
Theorem reachable_engine_never_panics h x :
  engine_reachable h ->
  (exists h', sha1.Write h x = Some (h', Z.of_nat (length x)) /\
              engine_reachable h') /\
  (exists d, sha1.Hash h = Some (d, sha1.New) /\ length (sha1.Bytes d) = 20%nat).
Proof.
  intros Hr. destruct (engine_reachable_absorbed h Hr) as [m ->]. split.
  - eexists. split; [apply Write_absorbed |].
    eapply reach_engine_Write; [exact Hr | apply Write_absorbed].
  - eexists. split; [apply Hash_absorbed | apply length_newDigest].
Qed.

Lemma reachable_engine_never_panics_witness :
  (exists h', sha1.Write sha1.New msg65 = Some (h', Z.of_nat (length msg65)) /\
              engine_reachable h') /\
  (exists d, sha1.Hash sha1.New = Some (d, sha1.New) /\
             length (sha1.Bytes d) = 20%nat).
Proof. apply reachable_engine_never_panics. apply reach_engine_New. Defined.

(** X10.  A generator over an engine that has taken in the seed bytes [m]: the first
    draw is the big-endian value of the first eight bytes of SHA-1 of [m], and
    every later draw is [0xDA39A3EE5E6B4B0D], the first eight bytes of the
    digest of the empty message. *)
Theorem draws_of_seeded_engine m n :
  8 * Z.of_nat (length m) < 2 ^ 64 ->
  exists r',
    gorng.draws (S n) (gorng.New (Some (absorbed m))) =
    Some (BigEndian.be_value (take 8 (FIPS.SHA1 m)) :: replicate n empty_word, r').
Proof.
  intros H.
  destruct (draws_on_New n (Some (sha1.mkDigest (FIPS.SHA1 m)))) as [r' Hr'].
  exists r'. cbn [gorng.draws].
  rewrite (Uint64_case_0 (gorng.New (Some (absorbed m))) eq_refl).
  change (gorng.rng (gorng.New (Some (absorbed m)))) with (absorbed m).
  rewrite Hash_absorbed, digest_SHA1 by exact H.
  rewrite <- digest_SHA1 by exact H. unfold BigEndian.Uint64.
  rewrite length_newDigest. change (8 <=? 20)%nat with true. cbv iota.
  rewrite digest_SHA1 by exact H. cbn [mbind option_bind sha1.Bytes].
  rewrite Hr'. reflexivity.
Qed.

Lemma draws_of_seeded_engine_witness :
  exists r',
    gorng.draws (S 3) (gorng.New (Some (absorbed [x61; x62; x63]))) =
    Some (BigEndian.be_value (take 8 (FIPS.SHA1 [x61; x62; x63]))
            :: replicate 3 empty_word, r').
Proof. apply draws_of_seeded_engine. vm_compute. reflexivity. Defined.

(** ** [copyBytes] past the end of the block, and [rotateL] *)

Lemma copyBytes_loop_app m1 : forall m2 blk len blocki value,
  sha1.copyBytes_loop (m1 ++ m2) blk len blocki value =
  match sha1.copyBytes_loop m1 blk len blocki value with
  | Some (blk', len', blocki', value') =>
    sha1.copyBytes_loop m2 blk' len' blocki' value'
  | None => None
  end.
Proof.
  induction m1 as [|b m1 IH]; intros m2 blk len blocki value.
  - reflexivity.
  - cbn [app sha1.copyBytes_loop].
    destruct (Z.land (u64 (len + 1)) sha1.BLOCKITEM_MASK =? 0).
    + destruct (store blk blocki _) as [blk1|]; cbn [mbind option_bind];
        [apply IH | reflexivity].
    + apply IH.
Qed.

(** Past the last word of the block the loop of [copyBytes] stops at the
    first word boundary, and otherwise ends off a boundary. *)
Lemma copyBytes_loop_at_end m : forall blk len value,
  length blk = 16%nat ->
  match sha1.copyBytes_loop m blk len 16 value with
  | Some (blk', len', blocki', _) =>
    blocki' = 16 /\ length blk' = 16%nat /\ (m <> [] -> Z.land len' 3 <> 0)
  | None => True
  end.
Proof.
  induction m as [|b m IH]; intros blk len value Hblk.
  - cbn [sha1.copyBytes_loop]. auto.
  - cbn [sha1.copyBytes_loop]. unfold sha1.BLOCKITEM_MASK.
    destruct (Z.eqb_spec (Z.land (u64 (len + 1)) 3) 0) as [Hz|Hnz].
    + unfold store. rewrite Hblk. exact I.
    + specialize (IH blk (u64 (len + 1))
                     (add32 (shl32 value 8) (Z_of_byte b)) Hblk).
      destruct m as [|b' m'].
      * cbn [sha1.copyBytes_loop]. auto.
      * destruct (sha1.copyBytes_loop (b' :: m') _ _ _ _)
          as [[[[blk' len'] blocki'] value']|]; [| exact I].
        destruct IH as (Hi & Hl & Hn). split; [exact Hi |]. split; [exact Hl |].
        intros _. apply Hn. discriminate.
Qed.

(** X11.  [copyBytes] on an engine that holds [p]: a message that fits in the block
    is appended to the block's bytes and counted; a message that does not fit
    makes the call panic on the index past the block's last word. *)
Theorem copyBytes_fits_or_panics cv p L m :
  (length p < 64)%nat -> 0 <= L < 2 ^ 64 -> L mod 64 = Z.of_nat (length p) ->
  Z.of_nat (length m) < 2 ^ 32 ->
  sha1.copyBytes (engine cv p L) m =
  if (length p + length m <=? 64)%nat
  then Some (engine cv (p ++ m) (u64 (L + Z.of_nat (length m))))
  else None.
Proof.
  intros Hp HL Hoff Hm.
  destruct (Nat.leb_spec (length p + length m) 64) as [Hfit|Hover].
  { apply copyBytes_engine; assumption. }
  unfold sha1.copyBytes, engine.
  cbn [sha1.block sha1.length sha1.chainValue].
  pose proof (Nat.div_mod_eq (length p) 4) as Hdm.
  pose proof (Nat.mod_upper_bound (length p) 4 ltac:(lia)) as Hub.
  assert (u32 (Z.of_nat (length m)) = Z.of_nat (length m)) as ->.
  { unfold u32. apply Z.mod_small. lia. }
  rewrite Nat2Z.id, take_ge by lia.
  assert (Z.shiftr (u32 (Z.land L 63)) 2 = Z.of_nat (length p / 4)) as ->.
  { rewrite land_63, Hoff. unfold u32. rewrite Z.mod_small by lia.
    rewrite Z.shiftr_div_pow2 by lia. change (2 ^ 2) with 4.
    rewrite Nat2Z.inj_div. reflexivity. }
  assert (load (pack p) (Z.of_nat (length p / 4)) =
          Some (BigEndian.be_value (drop (4 * (length p / 4)) p))) as ->.
  { unfold load. destruct (Z.leb_spec 0 (Z.of_nat (length p / 4))); [| lia].
    rewrite Nat2Z.id. rewrite <- word_at_partial.
    unfold pack. rewrite list_lookup_fmap, lookup_seq_lt by lia. reflexivity. }
  cbn [mbind option_bind].
  rewrite <- (take_drop (64 - length p) m) at 1.
  rewrite copyBytes_loop_app.
  assert (length (take (64 - length p) m) = (64 - length p)%nat) as Hl1
    by (rewrite length_take; lia).
  destruct (copyBytes_loop_pack (take (64 - length p) m) p (pack p) L)
    as (blk' & E & Hb' & _ & _).
  - lia.
  - apply length_pack.
  - exact HL.
  - rewrite <- Hoff. symmetry. apply Z.mod_mod_divide. exists 16. reflexivity.
  - intros j Hj. apply get_pack. lia.
  - intros j Hj. destruct (Nat.lt_ge_cases j 16).
    + rewrite get_pack by assumption. apply word_at_beyond. exact Hj.
    + apply get_beyond. rewrite length_pack. assumption.
  - rewrite E. clear E.
    assert (length (p ++ take (64 - length p) m) = 64%nat) as Hl
      by (rewrite length_app; lia).
    rewrite Hl. change (Z.of_nat (64 / 4)) with 16.
    pose proof (copyBytes_loop_at_end (drop (64 - length p) m) blk'
                  (u64 (L + Z.of_nat (length (take (64 - length p) m))))
                  (BigEndian.be_value
                     (drop (4 * (64 / 4)) (p ++ take (64 - length p) m))) Hb')
      as Hend.
    destruct (sha1.copyBytes_loop (drop (64 - length p) m) _ _ _ _)
      as [[[[blk2 len2] blocki2] value2]|]; [| reflexivity].
    destruct Hend as (-> & Hb2 & Hn). cbn [mbind option_bind].
    unfold sha1.BLOCKITEM_MASK.
    destruct (Z.eqb_spec (Z.land len2 3) 0) as [Hz|_].
    + exfalso. apply Hn; [| exact Hz].
      intros Hnil. apply (f_equal length) in Hnil.
      rewrite length_drop in Hnil. cbn [length] in Hnil. lia.
    + cbn [negb]. unfold store. rewrite Hb2. reflexivity.
Qed.

Lemma copyBytes_fits_or_panics_witness :
  sha1.copyBytes (engine initial_chainValue [x61] 1) (drop 1 msg65) =
  if (length [x61] + length (drop 1 msg65) <=? 64)%nat
  then Some (engine initial_chainValue ([x61] ++ drop 1 msg65)
                    (u64 (1 + Z.of_nat (length (drop 1 msg65)))))
  else None.
Proof.
  apply copyBytes_fits_or_panics.
  - cbn [length]. lia.
  - lia.
  - reflexivity.
  - vm_compute. reflexivity.
Defined.

(** X12.  Rotating a 32-bit word left by [n] and then by [32 - n] gives the word
    back. *)
Theorem rotateL_round_trip x n :
  is_u32 x -> 0 < n < 32 ->
  sha1.rotateL (sha1.rotateL x n) (32 - n) = x.
Proof.
  intros Hx Hn. apply Z.bits_inj'. intros i Hi.
  assert (is_u32 (sha1.rotateL x n)) as Hr by (apply is_u32_rotateL; assumption).
  destruct (Z.lt_ge_cases i 32) as [Hlt|Hge].
  - rewrite rotateL_testbit by (assumption || lia).
    destruct (Z.ltb_spec i (32 - n)).
    + rewrite rotateL_testbit by (assumption || lia).
      destruct (Z.ltb_spec (i + 32 - (32 - n)) n); [lia |].
      destruct (Z.ltb_spec (i + 32 - (32 - n)) 32); [| lia].
      f_equal. lia.
    + destruct (Z.ltb_spec i 32); [| lia].
      rewrite rotateL_testbit by (assumption || lia).
      destruct (Z.ltb_spec (i - (32 - n)) n); [| lia].
      f_equal. lia.
  - rewrite !is_u32_testbit; auto.
    apply is_u32_rotateL; [assumption | lia].
Qed.

Lemma rotateL_round_trip_witness :
  sha1.rotateL (sha1.rotateL 0x80000001 5) (32 - 5) = 0x80000001.
Proof. apply rotateL_round_trip; [unfold is_u32; lia | lia]. Defined.

(** ** The intermediate revision's [mixBits] against the current one *)

Lemma choice_f_choice b c d :
  is_u32 b -> is_u32 c -> is_u32 d -> draft2.choice b c d = sha1.f_choice b c d.
Proof.
  intros Hb Hc Hd. rewrite f_choice_Ch. unfold draft2.choice, FIPS.Ch.
  apply Z.bits_inj'. intros i Hi.
  rewrite !Z.lxor_spec, !Z.land_spec, Z.lxor_spec, Z.lnot_spec by exact Hi.
  destruct (Z.lt_ge_cases i 32) as [Hlt|Hge].
  - change 0xFFFFFFFF with (Z.ones 32). rewrite Z.ones_spec_low by lia.
    destruct (Z.testbit b i); reflexivity.
  - rewrite (is_u32_testbit d i Hd Hge), !andb_false_r.
    rewrite (is_u32_testbit b i Hb Hge). reflexivity.
Qed.

Lemma majority_f_majority b c d : draft2.majority b c d = sha1.f_majority b c d.
Proof.
  unfold draft2.majority, sha1.f_majority. apply Z.bits_inj'. intros i Hi.
  rewrite !Z.lor_spec, !Z.land_spec, Z.lor_spec.
  destruct (Z.testbit b i), (Z.testbit c i), (Z.testbit d i); reflexivity.
Qed.

Lemma round_vars_u32 f K W v i :
  vars_u32 v -> vars_u32 (sha1.round f K W v i).
Proof.
  destruct v as [[[[a b] c] d] e]. intros (Ha & Hb & Hc & Hd & He).
  unfold sha1.round, vars_u32.
  refine (conj _ (conj Ha (conj _ (conj Hc Hd)))).
  - apply is_u32_u32.
  - apply is_u32_rotateL; [assumption | lia].
Qed.

Lemma fold_round_ext f g K W :
  (forall b c d, is_u32 b -> is_u32 c -> is_u32 d -> g b c d = f b c d) ->
  forall l v, vars_u32 v ->
    fold_left (draft2.round g K W) l v = fold_left (sha1.round f K W) l v /\
    vars_u32 (fold_left (sha1.round f K W) l v).
Proof.
  intros Hfg. induction l as [|i l IH]; intros v Hv; cbn [fold_left].
  - split; [reflexivity | exact Hv].
  - assert (draft2.round g K W v i = sha1.round f K W v i) as ->.
    { destruct v as [[[[a b] c] d] e]. destruct Hv as (Ha & Hb & Hc & Hd & He).
      unfold draft2.round, sha1.round. rewrite Hfg by assumption. reflexivity. }
    apply IH. apply round_vars_u32. exact Hv.
Qed.

(** X13.  The intermediate revision's [mixBits] and the current one compute the
    same thing on a full block: the two-phase schedule and the cheaper forms
    of the choice and majority functions changed nothing.  What the current
    one dropped is the panic on a byte count that is not a multiple of 64. *)
Theorem draft2_mixBits_agrees blk L cv scratch :
  length blk = 16%nat -> Forall is_u32 blk ->
  length cv = 5%nat -> Forall is_u32 cv ->
  length scratch = 80%nat -> Forall is_u32 scratch ->
  draft2.mixBits (draft2.mkHasher blk L cv) scratch =
  if 0 <? Z.land L 63 then None
  else
    let '(state, scratch') := sha1.mixBits (sha1.mkHasher blk L cv) scratch in
    Some (draft2.mkHasher (sha1.block state) (sha1.length state)
                          (sha1.chainValue state), scratch').
Proof.
  intros Hb Hbr Hc Hcr Hs Hsr. unfold draft2.mixBits.
  cbn [draft2.block draft2.length draft2.digest].
  destruct (0 <? Z.land L 63); [reflexivity |].
  unfold sha1.mixBits. cbn [sha1.block sha1.length sha1.chainValue].
  rewrite (schedule_single_recurrence blk scratch) by assumption.
  change (fold_left draft2.sched_step (seq 16 (sha1.SCRATCH_INTS - 16)))
    with (fold_left sha1.sched_step1 (seq 16 64)).
  change (draft2.sched_load blk) with (sha1.sched_load blk).
  set (W := fold_left sha1.sched_step1 (seq 16 64)
              (fold_left (sha1.sched_load blk) (seq 0 16) scratch)).
  unfold sha1.rounds.
  assert (vars_u32 (get cv 0, get cv 1, get cv 2, get cv 3, get cv 4)) as Hv.
  { unfold vars_u32. repeat (split; [apply get_is_u32; exact Hcr |]).
    apply get_is_u32; exact Hcr. }
  destruct (fold_round_ext sha1.f_choice draft2.choice sha1.K_0 W
              choice_f_choice (seq 0 20) _ Hv) as [-> Hv0].
  destruct (fold_round_ext sha1.f_parity draft2.parity sha1.K_1 W
              (fun _ _ _ _ _ _ => eq_refl) (seq 20 20) _ Hv0) as [-> Hv1].
  destruct (fold_round_ext sha1.f_majority draft2.majority sha1.K_2 W
              (fun b c d _ _ _ => majority_f_majority b c d) (seq 40 20) _ Hv1)
    as [-> Hv2].
  destruct (fold_round_ext sha1.f_parity draft2.parity sha1.K_3 W
              (fun _ _ _ _ _ _ => eq_refl) (seq 60 20) _ Hv2) as [-> _].
  destruct (fold_left (sha1.round sha1.f_parity sha1.K_3 W) _ _)
    as [[[[a b] c] d] e].
  reflexivity.
Qed.

Lemma draft2_mixBits_agrees_witness :
  draft2.mixBits
    (draft2.mkHasher (0x80000000 :: replicate 15 0) 64 initial_chainValue)
    (replicate 80 7) =
  if 0 <? Z.land 64 63 then None
  else
    let '(state, scratch') :=
      sha1.mixBits
        (sha1.mkHasher (0x80000000 :: replicate 15 0) 64 initial_chainValue)
        (replicate 80 7) in
    Some (draft2.mkHasher (sha1.block state) (sha1.length state)
                          (sha1.chainValue state), scratch').
Proof.
  apply draft2_mixBits_agrees.
  - reflexivity.
  - apply (bool_decide_unpack (Forall is_u32 _)). vm_compute. exact I.
  - reflexivity.
  - apply (bool_decide_unpack (Forall is_u32 _)). vm_compute. exact I.
  - reflexivity.
  - apply (bool_decide_unpack (Forall is_u32 _)). vm_compute. exact I.
Defined.

(** ** cmd/dedup: the walk over the files *)

Section Dedup.
Variable EncodeToString : list byte -> string.
Variable Base : string -> string.
Variable Join : list string -> string.

Local Notation "'addToIndex'" := (dedup.addToIndex EncodeToString Base Join).
Local Notation "'visit'" := (dedup.visit EncodeToString Base Join).
Local Notation "'WalkDir'" := (dedup.WalkDir EncodeToString Base Join).
Local Notation "'signature_of'" := (dedup.signature_of EncodeToString).

Local Notation "'nested'" := (dedup.nested Base).
Local Notation "'visit_post'" := (dedup.visit_post EncodeToString Base).

Lemma signature_of_Some bytes : exists k, signature_of bytes = Some k.
Proof.
  unfold dedup.signature_of. rewrite (HashBytes_absorb bytes).
  cbn [mbind option_bind]. eauto.
Qed.

Lemma addToIndex_data cas p bytes k :
  signature_of bytes = Some k ->
  addToIndex cas p (os.data bytes) =
  match dedup.index cas !! k with
  | None =>
    Some (dedup.mkContentIndex
            (<[k := dedup.mkSignature k p]> (dedup.index cas)) (dedup.delete cas),
          [], None)
  | Some signature =>
    Some (cas,
          (if negb (String.eqb (dedup.Filepath signature)
                               (Base (dedup.Filepath signature)))
           then (if dedup.delete cas
                 then [dedup.Rename (dedup.Filepath signature)
                         (Join ["."%string; "saved"%string;
                                Base (dedup.Filepath signature)]);
                       dedup.Send (dedup.mkSignature k
                                     (Base (dedup.Filepath signature)))]
                 else []) ++ [dedup.Send signature]
           else if dedup.delete cas then [dedup.Remove p] else [])
          ++ [dedup.Send (dedup.mkSignature k p)], None)
  end.
Proof.
  unfold dedup.signature_of, dedup.addToIndex.
  destruct (sha1.HashBytes bytes) as [d|]; [| discriminate].
  cbn [mbind option_bind]. intros [= <-]. reflexivity.
Qed.

Lemma visit_post_skip cas s st :
  (forall bytes, ~ dedup.indexes s bytes) -> visit_post cas s cas [] st.
Proof.
  intros Hno. unfold dedup.visit_post.
  split; [reflexivity |]. split; [reflexivity |].
  split; [intros _; constructor |]. split; [intros _; constructor |].
  split; [intros k sg H; left; exact H |].
  intros bytes Hb. destruct (Hno bytes Hb).
Qed.

Lemma visit_spec cas s :
  exists cas' out st,
    visit cas s = Some (cas', out, st) /\ visit_post cas s cas' out st.
Proof.
  unfold dedup.visit.
  destruct (dedup.IsDir (dedup.entry s)) eqn:Hdir.
  { exists cas, [], dedup.walking. split; [reflexivity |].
    apply visit_post_skip. intros b0 (H & _). congruence. }
  destruct (dedup.err s) as [e|] eqn:Herr.
  { exists cas, [], (dedup.fatal e). split; [reflexivity |].
    apply visit_post_skip. intros b0 (_ & H & _). congruence. }
  destruct (existsb _ dedup.ignored) eqn:Hign.
  { exists cas, [], dedup.walking. split; [reflexivity |].
    apply visit_post_skip. intros b0 (_ & _ & H & _). congruence. }
  destruct (dedup.content s) as [bytes|e] eqn:Hcont.
  2:{ exists cas, [], (dedup.failed e). split; [reflexivity |].
      apply visit_post_skip. intros b0 (_ & _ & _ & H). congruence. }
  assert (dedup.indexes s bytes) as Hidx by (unfold dedup.indexes; auto).
  destruct (signature_of_Some bytes) as [k Hk].
  rewrite (addToIndex_data cas (dedup.path s) bytes k Hk).
  destruct (dedup.index cas !! k) as [sg|] eqn:Hlook; cbn [mbind option_bind].
  - eexists cas, _, dedup.walking. split; [reflexivity |].
    unfold dedup.visit_post.
    split; [reflexivity |]. split; [reflexivity |].
    split; [| split; [| split]].
    + intros Hdel. rewrite Hdel.
      destruct (negb _); repeat (constructor; try exact I).
    + intros Hn. specialize (Hn k sg Hlook).
      destruct (String.eqb_spec (dedup.Filepath sg) (Base (dedup.Filepath sg)))
        as [Heq|_]; [contradiction |].
      cbn [negb]. destruct (dedup.delete cas); cbn [app];
        repeat (constructor; [intros H; exact H |]); constructor.
    + intros k' sg' H. left. exact H.
    + intros b0 (_ & _ & _ & Hb). rewrite Hcont in Hb. injection Hb as <-.
      split; [reflexivity |].
      exists k. split; [exact Hk |]. split; [eauto |].
      intros _. apply elem_of_app. right. apply list_elem_of_singleton. reflexivity.
  - eexists _, [], dedup.walking. split; [reflexivity |].
    unfold dedup.visit_post. cbn [dedup.index dedup.delete].
    split; [apply insert_subseteq; exact Hlook |].
    split; [reflexivity |].
    split; [intros _; constructor |]. split; [intros _; constructor |].
    split.
    + intros k' sg' H. destruct (decide (k' = k)) as [->|Hne].
      * rewrite lookup_insert_eq in H. injection H as <-.
        right. exists bytes. auto.
      * rewrite lookup_insert_ne in H by congruence. left. exact H.
    + intros b0 (_ & _ & _ & Hb). rewrite Hcont in Hb. injection Hb as <-.
      split; [reflexivity |].
      exists k. split; [exact Hk |]. rewrite lookup_insert_eq, Hlook.
      split; [eauto |]. intros [? ?]. discriminate.
Qed.

Lemma WalkDir_cons cas s steps :
  exists cas1 out1 st1,
    visit cas s = Some (cas1, out1, st1) /\ visit_post cas s cas1 out1 st1 /\
    WalkDir cas (s :: steps) =
    match st1 with
    | dedup.walking =>
      match WalkDir cas1 steps with
      | Some (cas', out', st) => Some (cas', out1 ++ out', st)
      | None => None
      end
    | _ => Some (cas1, out1, st1)
    end.
Proof.
  destruct (visit_spec cas s) as (cas1 & out1 & st1 & Hv & Hpost).
  exists cas1, out1, st1. split; [exact Hv |]. split; [exact Hpost |].
  cbn [dedup.WalkDir]. rewrite Hv. cbn [mbind option_bind].
  destruct st1; reflexivity.
Qed.

Lemma WalkDir_Some steps : forall cas, is_Some (WalkDir cas steps).
Proof.
  induction steps as [|s steps IH]; intros cas.
  - cbn. eauto.
  - destruct (WalkDir_cons cas s steps) as (cas1 & out1 & st1 & _ & _ & ->).
    destruct st1; eauto.
    destruct (IH cas1) as [[[cas' out'] st] ->]. eauto.
Qed.


Lemma WalkDir_reports_indexed steps : forall cas cas' out j sj bytes k,
  WalkDir cas steps = Some (cas', out, dedup.walking) ->
  is_Some (dedup.index cas !! k) -> signature_of bytes = Some k ->
  steps !! j = Some sj -> dedup.indexes sj bytes ->
  dedup.Send (dedup.mkSignature k (dedup.path sj)) ∈ out.
Proof.
  induction steps as [|s steps IH]; intros cas cas' out j sj bytes k HW Hin Hk Hj Hidx.
  - destruct j; discriminate.
  - destruct (WalkDir_cons cas s steps)
      as (cas1 & out1 & st1 & _ & (Hsub & _ & _ & _ & _ & Hrep) & E).
    rewrite E in HW. clear E.
    destruct st1; [| discriminate | discriminate].
    destruct (WalkDir cas1 steps) as [[[cas2 out2] st2]|] eqn:HW2; [| discriminate].
    injection HW as <- <- ->. apply elem_of_app.
    destruct j as [|j].
    + injection Hj as ->. left.
      destruct (Hrep bytes Hidx) as (_ & k' & Hk' & _ & Hsend).
      rewrite Hk in Hk'. injection Hk' as <-. auto.
    + right. apply (IH cas1 cas2 out2 j sj bytes k HW2); auto.
      destruct Hin as [sg Hsg]. exists sg.
      exact (lookup_weaken _ _ _ _ Hsg Hsub).
Qed.





(** X17.  A walk that runs to its end reports every duplicate: when two calls reach
    [addToIndex] with the same content, the later one's path is sent on the
    output channel under the content's signature. *)
Theorem WalkDir_reports_duplicates cas steps i j si sj bytes :
  (i < j)%nat -> steps !! i = Some si -> steps !! j = Some sj ->
  dedup.indexes si bytes -> dedup.indexes sj bytes ->
  exists cas' out st,
    WalkDir cas steps = Some (cas', out, st) /\
    (st = dedup.walking ->
     exists k, signature_of bytes = Some k /\
               dedup.Send (dedup.mkSignature k (dedup.path sj)) ∈ out).
Proof.
  intros Hij Hi Hj Hsi Hsj.
  destruct (WalkDir_Some steps cas) as [[[cas' out] st] HW].
  exists cas', out, st. split; [exact HW |]. intros ->.
  destruct (signature_of_Some bytes) as [k Hk]. exists k. split; [exact Hk |].
  revert cas cas' out i j Hij Hi Hj HW.
  induction steps as [|s steps IH]; intros cas cas' out i j Hij Hi Hj HW.
  - destruct i; discriminate.
  - destruct (WalkDir_cons cas s steps)
      as (cas1 & out1 & st1 & _ & (_ & _ & _ & _ & _ & Hrep) & E).
    rewrite E in HW. clear E.
    destruct st1; [| discriminate | discriminate].
    destruct (WalkDir cas1 steps) as [[[cas2 out2] st2]|] eqn:HW2; [| discriminate].
    injection HW as <- <- ->. apply elem_of_app. right.
    destruct j as [|j]; [lia |]. cbn in Hj.
    destruct i as [|i].
    + injection Hi as ->.
      destruct (Hrep bytes Hsi) as (_ & k' & Hk' & Hin & _).
      rewrite Hk in Hk'. injection Hk' as <-.
      exact (WalkDir_reports_indexed steps _ _ _ j sj bytes k HW2 Hin Hk Hj Hsj).
    + cbn in Hi. apply (IH cas1 cas2 out2 i j); auto. lia.
Qed.

End Dedup.



Lemma WalkDir_reports_duplicates_witness :
  exists cas' out st,
    dedup.WalkDir encode.hex (last_element "") join_elements
      (dedup.newContentIndex true) walk_example = Some (cas', out, st) /\
    (st = dedup.walking ->
     exists k, dedup.signature_of encode.hex [x61; x62; x63] = Some k /\
               dedup.Send (dedup.mkSignature k "d/b") ∈ out).
Proof.
  apply (WalkDir_reports_duplicates encode.hex (last_element "") join_elements
           (dedup.newContentIndex true) walk_example 0 1
           (dedup.mkStep "d/a" (dedup.mkDirEntry "a" false) None
                         (os.data [x61; x62; x63]))
           (dedup.mkStep "d/b" (dedup.mkDirEntry "b" false) None
                         (os.data [x61; x62; x63]))).
  - lia.
  - reflexivity.
  - reflexivity.
  - unfold dedup.indexes. split; [reflexivity |]. split; [reflexivity |].
    split; reflexivity.
  - unfold dedup.indexes. split; [reflexivity |]. split; [reflexivity |].
    split; reflexivity.
Defined.

(** ** cmd/encode *)

Lemma length_hex b : String.length (encode.hex b) = (2 * length b)%nat.
Proof.
  induction b as [|x b IH]; [reflexivity |].
  cbn [encode.hex String.length length]. rewrite IH. lia.
Qed.

(** X18.  [cmd/encode]: on the input the flags select, [main] does not panic and
    prints the SHA-1 digest of that input, in base 64 with [--base64] and
    otherwise as [0x] and forty upper-case hexadecimal digits. *)
Theorem encode_main_prints_SHA1 (EncodeToString : list byte -> string) fl f bytes :
  cmd_encode.input fl f = inr bytes ->
  8 * Z.of_nat (length bytes) < 2 ^ 64 ->
  cmd_encode.main EncodeToString fl f =
    Some (cmd_encode.printed
            (if cmd_encode.base64output fl
             then EncodeToString (FIPS.SHA1 bytes)
             else String.append "0x" (encode.hex (FIPS.SHA1 bytes)))) /\
  String.length (String.append "0x" (encode.hex (FIPS.SHA1 bytes))) = 42%nat.
Proof.
  intros Hin Hlen. split.
  - unfold cmd_encode.main. rewrite Hin, (HashBytes_absorb bytes), digest_SHA1
      by exact Hlen.
    reflexivity.
  - change (String.append "0x" (encode.hex (FIPS.SHA1 bytes)))
      with (String "0" (String "x" (encode.hex (FIPS.SHA1 bytes)))).
    cbn [String.length]. rewrite length_hex.
    change (FIPS.SHA1 bytes) with (sha1.Bytes (sha1.mkDigest (FIPS.SHA1 bytes))).
    rewrite <- digest_SHA1 by exact Hlen. rewrite length_newDigest. reflexivity.
Qed.

Lemma encode_main_prints_SHA1_witness :
  cmd_encode.main encode.hex
    (cmd_encode.mkFlags "" false false ["abc"%string]) (os.unreadable "") =
    Some (cmd_encode.printed
            (if cmd_encode.base64output
                  (cmd_encode.mkFlags "" false false ["abc"%string])
             then encode.hex (FIPS.SHA1 (list_byte_of_string "abc"))
             else String.append "0x"
                    (encode.hex (FIPS.SHA1 (list_byte_of_string "abc"))))) /\
  String.length
    (String.append "0x" (encode.hex (FIPS.SHA1 (list_byte_of_string "abc")))) = 42%nat.
Proof.
  apply encode_main_prints_SHA1; [reflexivity | vm_compute; reflexivity].
Defined.
